(** * ConversationSection: recording session, speaker, log and suggestions

    A shallow embedding of [src/components/Conversation/ConversationSection.tsx].

    The component is a React function component.  Its [useState] cells and
    [useRef] cells are the fields of [Component]; the browser runtime it
    relies on (live [setInterval] timers, promises that have been awaited
    and not yet settled) is the rest of [World].  Every handler is an
    [async] function: it runs synchronously up to its next [await], parks
    a continuation ([Task]) and is resumed when the promise settles.  Other
    events may be delivered between the two, which is what the properties
    about races are about.

    A handler reads state variables through the closure of the render that
    created it ([Closure]); refs and state setters are shared by all
    renders.  The component is taken to be re-rendered after every event,
    so that the buttons carry the handlers of the current state.  The
    cleanup of the effect (lines 94-103) is left out: everything below is
    about the mounted component. *)

From stdpp Require Import base option list gmap strings pretty.
From Stdlib Require Import ZArith Ascii.

(** ** Data model (lines 9-20) *)

Inductive Speaker := interviewer | interviewee.

#[global] Instance Speaker_eq_dec : EqDecision Speaker.
Proof. solve_decision. Defined.

Record ConversationMessage := mkMessage {
  id : string;
  speaker : Speaker;
  text : string;
  timestamp : Z;
  edited : option bool
}.

Record AISuggestion := mkSuggestion {
  suggestions : list string;
  reasoning : string
}.

(** ** The conversation log (lines 64-80, 110-120)

    The three state updaters handed to [setMessages], and the value
    installed by the initial load. *)
Module Log.

(** [prev => [...prev, message]] *)
Definition added (message : ConversationMessage)
    (prev : list ConversationMessage) : list ConversationMessage :=
  prev ++ [message].

(** [prev => prev.map(msg => msg.id === message.id ? message : msg)] *)
Definition updated (message : ConversationMessage)
    (prev : list ConversationMessage) : list ConversationMessage :=
  (λ msg, if decide (id msg = id message) then message else msg) <$> prev.

(** [setMessages([])] *)
Definition cleared : list ConversationMessage := [].

(** [setMessages(result.messages)] *)
Definition loaded (fromHost : list ConversationMessage)
    : list ConversationMessage := fromHost.

(** The invariant of the data model: no two entries share an identifier. *)
Definition unique_ids (l : list ConversationMessage) : Prop :=
  NoDup (id <$> l).

End Log.

(** ** Collaborator values (section 6 of the design, and the calls made
    on [window.electronAPI]) *)

(** A thrown value; only [error.message] is ever read. *)
Record JsError := mkError { message : option string }.

(** [error.message || fallback]: the fallback is taken when the message is
    missing or is the empty string. *)
Definition or_else (e : JsError) (fallback : string) : string :=
  match message e with
  | Some m => if decide (m = EmptyString) then fallback else m
  | None => fallback
  end.

Record Blob := mkBlob { blob_type : string; blob_bytes : list Byte.byte }.

Record Transcript := mkTranscript { t_text : string }.

(** [{success, result?: {text}}] *)
Record TranscribeResult := mkTranscribeResult {
  tr_success : bool;
  tr_result : option Transcript
}.

(** [{success, suggestions?: {suggestions[], reasoning}}] *)
Record SuggestionsResult := mkSuggestionsResult {
  gs_success : bool;
  gs_suggestions : option AISuggestion
}.

(** [{success, speaker}] *)
Record ToggleResult := mkToggleResult {
  ts_success : bool;
  ts_speaker : Speaker
}.

(** [{success, messages[]}] *)
Record ConversationResult := mkConversationResult {
  gc_success : bool;
  gc_messages : list ConversationMessage
}.

(** Modelled from the spec: the class [AudioRecorder] of
    [utils/audioRecorder], which is imported at line 7 and whose source is
    not part of this development.  The design gives the capture collaborator as
    [startCapture() -> handle | fails] and [stopCapture(handle) ->
    audioPayload]; the component also reads [getIsRecording()].  The model
    keeps the one bit that call returns: it is raised when a start
    succeeds and lowered when a stop delivers its payload.  Whether a
    start or a stop succeeds is decided by the environment ([Reply]). *)
Record AudioRecorder := mkRecorder { getIsRecording : bool }.

(** ** Component state (lines 51-59) *)

Record Component := mkComponent {
  messages : list ConversationMessage;
  isRecording : bool;
  currentSpeaker : Speaker;
  aiSuggestions : option AISuggestion;
  isProcessing : bool;
  recordingDuration : nat;
  audioRecorderRef : option AudioRecorder;
  durationIntervalRef : option positive
}.

(** What a handler sees of the state variables: the values of the render
    in which the handler was created. *)
Record Closure := mkClosure {
  cl_isRecording : bool;
  cl_currentSpeaker : Speaker
}.

(** ** Suspended handlers

    One constructor per [await] of the component; the arguments are the
    local variables that are live across the suspension. *)
Inductive Task :=
| StartRecordingK                                   (* line 128 *)
| StopRecordingK (c : Closure)                      (* line 153 *)
| ArrayBufferK (c : Closure) (mime : string)        (* line 156 *)
| TranscribeK (c : Closure)                         (* line 159 *)
| AddMessageK (c : Closure) (txt : string)          (* line 165 *)
| SuggestionsK (question : string)                  (* line 186, awaited at 169 *)
| ToggleSpeakerK                                    (* line 198 *)
| LoadConversationK.                                (* line 112 *)

(** How a promise settles: rejected with an error, or fulfilled with the
    value of the call that was awaited. *)
Inductive Reply :=
| Rejects (e : JsError)
| StartRecordingR
| StopRecordingR (b : Blob)
| ArrayBufferR (buf : list Byte.byte)
| TranscribeR (r : TranscribeResult)
| AddMessageR
| SuggestionsR (r : SuggestionsResult)
| ToggleSpeakerR (r : ToggleResult)
| ConversationR (r : ConversationResult).

(** What a handler does to the outside: calls on collaborators, the
    console and the blocking [alert] dialog. *)
Inductive Effect :=
| ConsoleError (what : string)
| Alert (msg : string)
| ScrollToBottom
| RecorderStart
| RecorderStop
| TranscribeAudio (buf : list Byte.byte) (mime : string)
| AddConversationMessage (txt : string) (sp : Speaker)
| GetAnswerSuggestions (question : string)
| ToggleSpeaker
| GetConversation.

Definition is_alert (e : Effect) : bool :=
  match e with Alert _ => true | _ => false end.

(** ** The world: component plus runtime *)

Record World := mkWorld {
  ui : Component;
  intervals : gset positive;       (* timers created and not cleared *)
  next_interval : positive;        (* handles are positive, hence truthy *)
  pending : gmap nat Task;         (* awaited promises *)
  next_promise : nat
}.

Definition on_ui (f : Component → Component) (w : World) : World :=
  mkWorld (f (ui w)) (intervals w) (next_interval w) (pending w)
          (next_promise w).

Definition setMessages (f : list ConversationMessage → list ConversationMessage)
    : World → World :=
  on_ui (λ s, mkComponent (f (messages s)) (isRecording s) (currentSpeaker s)
                (aiSuggestions s) (isProcessing s) (recordingDuration s)
                (audioRecorderRef s) (durationIntervalRef s)).

Definition setIsRecording (b : bool) : World → World :=
  on_ui (λ s, mkComponent (messages s) b (currentSpeaker s)
                (aiSuggestions s) (isProcessing s) (recordingDuration s)
                (audioRecorderRef s) (durationIntervalRef s)).

Definition setCurrentSpeaker (sp : Speaker) : World → World :=
  on_ui (λ s, mkComponent (messages s) (isRecording s) sp
                (aiSuggestions s) (isProcessing s) (recordingDuration s)
                (audioRecorderRef s) (durationIntervalRef s)).

Definition setAiSuggestions (a : option AISuggestion) : World → World :=
  on_ui (λ s, mkComponent (messages s) (isRecording s) (currentSpeaker s)
                a (isProcessing s) (recordingDuration s)
                (audioRecorderRef s) (durationIntervalRef s)).

Definition setIsProcessing (b : bool) : World → World :=
  on_ui (λ s, mkComponent (messages s) (isRecording s) (currentSpeaker s)
                (aiSuggestions s) b (recordingDuration s)
                (audioRecorderRef s) (durationIntervalRef s)).

Definition setRecordingDuration (f : nat → nat) : World → World :=
  on_ui (λ s, mkComponent (messages s) (isRecording s) (currentSpeaker s)
                (aiSuggestions s) (isProcessing s) (f (recordingDuration s))
                (audioRecorderRef s) (durationIntervalRef s)).

Definition set_audioRecorderRef (r : option AudioRecorder) : World → World :=
  on_ui (λ s, mkComponent (messages s) (isRecording s) (currentSpeaker s)
                (aiSuggestions s) (isProcessing s) (recordingDuration s)
                r (durationIntervalRef s)).

Definition set_durationIntervalRef (t : option positive) : World → World :=
  on_ui (λ s, mkComponent (messages s) (isRecording s) (currentSpeaker s)
                (aiSuggestions s) (isProcessing s) (recordingDuration s)
                (audioRecorderRef s) t).

(** [setInterval(...)]: a fresh handle, live from now on. *)
Definition setInterval (w : World) : positive * World :=
  (next_interval w,
   mkWorld (ui w) ({[next_interval w]} ∪ intervals w)
           (Pos.succ (next_interval w)) (pending w) (next_promise w)).

(** [clearInterval(t)]; clearing a handle that is not live does nothing. *)
Definition clearInterval (t : positive) (w : World) : World :=
  mkWorld (ui w) (intervals w ∖ {[t]}) (next_interval w) (pending w)
          (next_promise w).

(** [await]: park the rest of the handler under a fresh promise. *)
Definition await (k : Task) (w : World) : World :=
  mkWorld (ui w) (intervals w) (next_interval w)
          (<[next_promise w := k]> (pending w)) (S (next_promise w)).

Definition settled (p : nat) (w : World) : World :=
  mkWorld (ui w) (intervals w) (next_interval w) (delete p (pending w))
          (next_promise w).

(** The recorder's own flag, as the model of [AudioRecorder] above has it. *)
Definition recorder_flag (b : bool) (w : World) : World :=
  match audioRecorderRef (ui w) with
  | Some _ => set_audioRecorderRef (Some (mkRecorder b)) w
  | None => w
  end.

(** ** Renders and closures *)

Definition initial : Component :=
  mkComponent [] false interviewee None false 0 None None.

Definition render (s : Component) : Closure :=
  mkClosure (isRecording s) (currentSpeaker s).

(** The effect at lines 61-104 has an empty dependency list: it runs once,
    after the first render, and [handleToggleRecording] (lines 83-90) is
    created there.  The [handleStopRecording] and [handleStartRecording] it
    names are therefore the ones of the first render, whose state
    variables hold the initial values. *)
Definition first_render : Closure := render initial.

(** ** Handlers

    Each [async] handler is given as the part that runs when it is called
    and the part that runs when the promise it awaits settles.  A reply of
    the wrong kind for the task is no behaviour of the program ([None]). *)

Definition Outcome : Type := World * list Effect.

(** *** [loadConversation] (lines 110-120) *)

Definition loadConversation (w : World) : Outcome :=
  (await LoadConversationK w, [GetConversation]).

Definition loadConversation_resume (r : Reply) (w : World) : option Outcome :=
  match r with
  | ConversationR result =>
      if gc_success result
      then Some (setMessages (λ _, Log.loaded (gc_messages result)) w,
                 [ScrollToBottom])
      else Some (w, [])
  | Rejects _ => Some (w, [ConsoleError "Failed to load conversation:"])
  | _ => None
  end.

(** *** Host push events (lines 64-80) *)

Definition onConversationMessageAdded (m : ConversationMessage) (w : World)
    : Outcome :=
  (setMessages (Log.added m) w, [ScrollToBottom]).

Definition onSpeakerChanged (sp : Speaker) (w : World) : Outcome :=
  (setCurrentSpeaker sp w, []).

Definition onConversationMessageUpdated (m : ConversationMessage) (w : World)
    : Outcome :=
  (setMessages (Log.updated m) w, []).

Definition onConversationCleared (w : World) : Outcome :=
  (setAiSuggestions None (setMessages (λ _, Log.cleared) w), []).

(** *** [handleStartRecording] (lines 122-140) *)

Definition handleStartRecording (w : World) : Outcome :=
  let w1 := match audioRecorderRef (ui w) with
            | None => set_audioRecorderRef (Some (mkRecorder false)) w
            | Some _ => w
            end in
  (await StartRecordingK w1, [RecorderStart]).

Definition handleStartRecording_resume (r : Reply) (w : World)
    : option Outcome :=
  match r with
  | StartRecordingR =>
      let w1 := recorder_flag true w in
      let w2 := setIsRecording true w1 in
      let w3 := setRecordingDuration (λ _, 0) w2 in
      let '(t, w4) := setInterval w3 in
      Some (set_durationIntervalRef (Some t) w4, [])
  | Rejects error =>
      Some (w, [ConsoleError "Failed to start recording:";
                Alert (or_else error
                  "Failed to start recording. Please check microphone permissions.")])
  | _ => None
  end.

(** *** [fetchAISuggestions] (lines 184-194) *)

Definition fetchAISuggestions (question : string) (w : World) : Outcome :=
  (await (SuggestionsK question) w, [GetAnswerSuggestions question]).

Definition fetchAISuggestions_resume (r : Reply) (w : World)
    : option Outcome :=
  match r with
  | SuggestionsR result =>
      if gs_success result
      then match gs_suggestions result with
           | Some s => Some (setAiSuggestions (Some s) w, [])
           | None => Some (w, [])
           end
      else Some (w, [])
  | Rejects _ => Some (w, [ConsoleError "Failed to get AI suggestions:"])
  | _ => None
  end.

(** *** [handleStopRecording] (lines 142-182) *)

(** The [finally] block (lines 178-181). *)
Definition stop_finally (w : World) : World :=
  setRecordingDuration (λ _, 0) (setIsProcessing false w).

(** The [catch] block (lines 175-177). *)
Definition stop_catch (error : JsError) : list Effect :=
  [ConsoleError "Failed to process recording:";
   Alert (or_else error "Failed to process recording")].

Definition handleStopRecording (c : Closure) (w : World) : Outcome :=
  match audioRecorderRef (ui w) with
  | None => (w, [])
  | Some _ =>
      if negb (cl_isRecording c) then (w, [])
      else
        let w1 := setIsRecording false w in
        let w2 := match durationIntervalRef (ui w1) with
                  | Some t => set_durationIntervalRef None (clearInterval t w1)
                  | None => w1
                  end in
        let w3 := setIsProcessing true w2 in
        (await (StopRecordingK c) w3, [RecorderStop])
  end.

Definition handleStopRecording_resume (k : Task) (r : Reply) (w : World)
    : option Outcome :=
  match k, r with
  | StopRecordingK c, StopRecordingR audioBlob =>
      Some (await (ArrayBufferK c (blob_type audioBlob))
                  (recorder_flag false w), [])
  | ArrayBufferK c mime, ArrayBufferR arrayBuffer =>
      Some (await (TranscribeK c) w, [TranscribeAudio arrayBuffer mime])
  | TranscribeK c, TranscribeR transcribeResult =>
      if tr_success transcribeResult
      then match tr_result transcribeResult with
           | Some result =>
               Some (await (AddMessageK c (t_text result)) w,
                     [AddConversationMessage (t_text result)
                                             (cl_currentSpeaker c)])
           | None => Some (stop_finally w, [])
           end
      else Some (stop_finally w, [])
  | AddMessageK c txt, AddMessageR =>
      match cl_currentSpeaker c with
      | interviewer => Some (fetchAISuggestions txt w)
      | interviewee => Some (stop_finally (setAiSuggestions None w), [])
      end
  | SuggestionsK _, _ =>
      '(w1, effs) ← fetchAISuggestions_resume r w;
      Some (stop_finally w1, effs)
  | StopRecordingK _, Rejects error
  | ArrayBufferK _ _, Rejects error
  | TranscribeK _, Rejects error
  | AddMessageK _ _, Rejects error =>
      Some (stop_finally w, stop_catch error)
  | _, _ => None
  end.

(** *** [handleToggleSpeaker] (lines 196-206) *)

Definition handleToggleSpeaker (w : World) : Outcome :=
  (await ToggleSpeakerK w, [ToggleSpeaker]).

Definition handleToggleSpeaker_resume (r : Reply) (w : World)
    : option Outcome :=
  match r with
  | ToggleSpeakerR result =>
      if ts_success result
      then Some (setAiSuggestions None
                   (setCurrentSpeaker (ts_speaker result) w), [])
      else Some (w, [])
  | Rejects _ => Some (w, [ConsoleError "Failed to toggle speaker:"])
  | _ => None
  end.

(** *** [handleToggleRecording] (lines 83-90)

    [audioRecorderRef.current?.getIsRecording() || false] is read through
    the ref, so it is current; the two handlers it routes to are those of
    the first render. *)
Definition handleToggleRecording (w : World) : Outcome :=
  let currentIsRecording :=
    match audioRecorderRef (ui w) with
    | Some r => getIsRecording r
    | None => false
    end in
  if currentIsRecording
  then handleStopRecording first_render w
  else handleStartRecording w.

(** ** Events and steps *)

Inductive Event :=
| ClickRecord                       (* the record button, lines 225-235 *)
| ClickSpeaker                      (* the speaker button, lines 237-243 *)
| ToggleRecording                   (* the 'toggle-recording' signal *)
| MessageAdded (m : ConversationMessage)
| SpeakerChanged (sp : Speaker)
| MessageUpdated (m : ConversationMessage)
| ConversationCleared
| Tick (t : positive)               (* a live interval fires *)
| Settle (p : nat) (r : Reply).     (* an awaited promise settles *)

Definition resume (k : Task) (r : Reply) (w : World) : option Outcome :=
  match k with
  | StartRecordingK => handleStartRecording_resume r w
  | ToggleSpeakerK => handleToggleSpeaker_resume r w
  | LoadConversationK => loadConversation_resume r w
  | _ => handleStopRecording_resume k r w
  end.

(** One event, handled to its next suspension.  The buttons' handlers are
    those of the latest render; a disabled button dispatches nothing. *)
Definition step (e : Event) (w : World) : option Outcome :=
  match e with
  | ClickRecord =>
      if isProcessing (ui w) then Some (w, [])
      else if isRecording (ui w)
           then Some (handleStopRecording (render (ui w)) w)
           else Some (handleStartRecording w)
  | ClickSpeaker =>
      if isRecording (ui w) || isProcessing (ui w) then Some (w, [])
      else Some (handleToggleSpeaker w)
  | ToggleRecording => Some (handleToggleRecording w)
  | MessageAdded m => Some (onConversationMessageAdded m w)
  | SpeakerChanged sp => Some (onSpeakerChanged sp w)
  | MessageUpdated m => Some (onConversationMessageUpdated m w)
  | ConversationCleared => Some (onConversationCleared w)
  | Tick t =>
      if decide (t ∈ intervals w)
      then Some (setRecordingDuration S w, [])
      else None
  | Settle p r =>
      k ← pending w !! p;
      resume k r (settled p w)
  end.

Fixpoint run (es : list Event) (w : World) : option Outcome :=
  match es with
  | [] => Some (w, [])
  | e :: es' =>
      '(w1, effs1) ← step e w;
      '(w2, effs2) ← run es' w1;
      Some (w2, effs1 ++ effs2)
  end.

(** The component after its first render and effect (lines 61-62). *)
Definition mount : Outcome :=
  loadConversation (mkWorld initial ∅ 1%positive ∅ 0).

Definition mounted : World := fst mount.

(** ** Vocabulary of the properties *)

(** The session phases of the design, read off the two flags. *)
Definition busy (s : Component) : bool := isRecording s || isProcessing s.

(** The three invalidating events of the design, as they occur in the
    component: a toggle that the host reports successful, the
    conversation-cleared push, and a capture that has started. *)
Definition invalidates (e : Event) (w : World) : bool :=
  match e with
  | ConversationCleared => true
  | Settle p (ToggleSpeakerR result) =>
      ts_success result &&
      match pending w !! p with Some ToggleSpeakerK => true | _ => false end
  | Settle p StartRecordingR =>
      match pending w !! p with Some StartRecordingK => true | _ => false end
  | _ => false
  end.

(** A reply to [getAnswerSuggestions] that carries suggestions. *)
Definition suggested (s : AISuggestion) : Reply :=
  SuggestionsR (mkSuggestionsResult true (Some s)).

(** A suggestion request that fails: the call throws, or the host answers
    without success. *)
Definition failing (r : Reply) : bool :=
  match r with
  | Rejects _ => true
  | SuggestionsR result => negb (gs_success result)
  | _ => false
  end.

(** The speaker a suspended [handleStopRecording] will attribute to. *)
Definition attribution (k : Task) : option Speaker :=
  match k with
  | StopRecordingK c | ArrayBufferK c _ | TranscribeK c | AddMessageK c _ =>
      Some (cl_currentSpeaker c)
  | _ => None
  end.

(** The events that write the log: the three pushes, and the reply to the
    initial load. *)
Definition writes_log (e : Event) (w : World) : bool :=
  match e with
  | MessageAdded _ | MessageUpdated _ | ConversationCleared => true
  | Settle p _ =>
      match pending w !! p with Some LoadConversationK => true | _ => false end
  | _ => false
  end.

(** The suspensions of [handleStopRecording], the awaited
    [fetchAISuggestions] included. *)
Definition in_stop (k : Task) : bool :=
  match k with
  | StartRecordingK | ToggleSpeakerK | LoadConversationK => false
  | _ => true
  end.

(** A reply that the awaited call can give. *)
Definition answers (k : Task) (r : Reply) : bool :=
  match k, r with
  | _, Rejects _
  | StartRecordingK, StartRecordingR
  | StopRecordingK _, StopRecordingR _
  | ArrayBufferK _ _, ArrayBufferR _
  | TranscribeK _, TranscribeR _
  | AddMessageK _ _, AddMessageR
  | SuggestionsK _, SuggestionsR _
  | ToggleSpeakerK, ToggleSpeakerR _
  | LoadConversationK, ConversationR _ => true
  | _, _ => false
  end.

(** A capture starts. *)
Definition starts_capture (e : Event) : bool :=
  match e with Settle _ StartRecordingR => true | _ => false end.

(** At most one [handleStopRecording] is in flight, and the processing
    flag is up while it is. *)
Definition one_stop_at_a_time (w : World) : Prop :=
  (∀ (p : nat) (k : Task),
     pending w !! p = Some k → in_stop k = true →
     isProcessing (ui w) = true)
  ∧ (∀ (p1 p2 : nat) (k1 k2 : Task),
       pending w !! p1 = Some k1 → in_stop k1 = true →
       pending w !! p2 = Some k2 → in_stop k2 = true →
       p1 = p2).

(** *** The statements that the component does not satisfy *)

(** A suggestion reply that arrives after an invalidating event is not
    displayed. *)
Definition stale_reply_discarded : Prop :=
  ∀ (w0 : World) (p : nat) (q : string) (es1 : list Event) (e : Event)
    (es2 : list Event) (w1 w2 w3 w4 : World) (f1 f2 f3 f4 : list Effect)
    (s : AISuggestion),
    pending w0 !! p = Some (SuggestionsK q) →
    run es1 w0 = Some (w1, f1) →
    invalidates e w1 = true →
    step e w1 = Some (w2, f2) →
    run es2 w2 = Some (w3, f3) →
    step (Settle p (suggested s)) w3 = Some (w4, f4) →
    aiSuggestions (ui w4) ≠ Some s.

(** After each invalidating event nothing is displayed. *)
Definition cleared_by_each_invalidation : Prop :=
  ∀ (e : Event) (w w' : World) (f : list Effect),
    invalidates e w = true →
    step e w = Some (w', f) →
    aiSuggestions (ui w') = None.

(** A start while recording or processing does nothing, whatever the
    recorder then answers. *)
Definition start_rejected_when_busy : Prop :=
  ∀ (w w1 w2 : World) (f1 f2 : list Effect) (r : Reply),
    busy (ui w) = true →
    handleStartRecording w = (w1, f1) →
    step (Settle (next_promise w) r) w1 = Some (w2, f2) →
    (RecorderStart ∉ f1) ∧ ui w2 = ui w ∧ intervals w2 = intervals w.

(** A toggle while recording or processing changes neither the speaker nor
    the suggestion, whatever the host then answers. *)
Definition toggle_rejected_when_busy : Prop :=
  ∀ (w w1 w2 : World) (f1 f2 : list Effect) (r : Reply),
    busy (ui w) = true →
    handleToggleSpeaker w = (w1, f1) →
    step (Settle (next_promise w) r) w1 = Some (w2, f2) →
    currentSpeaker (ui w2) = currentSpeaker (ui w)
    ∧ aiSuggestions (ui w2) = aiSuggestions (ui w).

(** A message-added push keeps identifiers unique. *)
Definition added_keeps_unique_ids : Prop :=
  ∀ (m : ConversationMessage) (l : list ConversationMessage),
    Log.unique_ids l → Log.unique_ids (Log.added m l).

(** ** Scenarios *)
Module Scenario.

Definition loaded : Event :=
  Settle 0 (ConversationR (mkConversationResult true [])).

Definition q1 : string := "How do you handle failures?".

Definition a1 : string := "I use retries.".

Definition advice : AISuggestion :=
  mkSuggestion ["Describe retries with backoff"; "Mention idempotency"]
               "The question is about resilience".

Definition blob : Blob := mkBlob "audio/webm" [].

Definition heard (txt : string) : Reply :=
  TranscribeR (mkTranscribeResult true (Some (mkTranscript txt))).

Definition question : ConversationMessage :=
  mkMessage "m1" interviewer q1 1000 None.

Definition answer : ConversationMessage :=
  mkMessage "m2" interviewee a1 2000 None.

(** The speaker becomes the interviewer; the toggle button is then pressed
    again (promise 2, answered late); a question is recorded and
    transcribed, and the host is asked to append it (promise 7). *)
Definition transcribed : list Event :=
  [ loaded;
    ClickSpeaker; Settle 1 (ToggleSpeakerR (mkToggleResult true interviewer));
    ClickSpeaker;
    ClickRecord; Settle 3 StartRecordingR; Tick 1; Tick 1;
    ClickRecord; Settle 4 (StopRecordingR blob); Settle 5 (ArrayBufferR []);
    Settle 6 (heard q1) ].

(** The host confirms the append, and suggestions are requested for the
    question (promise 8). *)
Definition question_asked : list Event :=
  transcribed ++ [Settle 7 AddMessageR].

(** While the request is out the host pushes the question, the late toggle
    reply makes the interviewee the speaker, and an interviewee message is
    appended. *)
Definition meanwhile : list Event :=
  [ MessageAdded question;
    Settle 2 (ToggleSpeakerR (mkToggleResult true interviewee));
    MessageAdded answer ].

Definition race : list Event :=
  question_asked ++ meanwhile ++ [Settle 8 (suggested advice)].

(** The same question with the reply in time; the record button is then
    pressed for the next recording (promise 9). *)
Definition next_recording_requested : list Event :=
  question_asked ++
  [ MessageAdded question; Settle 8 (suggested advice); ClickRecord ].

(** A recording is stopped with the button and the recorder has delivered
    the audio, which is now being read and transcribed. *)
Definition processing : list Event :=
  [ loaded;
    ClickRecord; Settle 1 StartRecordingR; Tick 1;
    ClickRecord; Settle 2 (StopRecordingR blob) ].

(** While it is being processed the shortcut is pressed (promise 4) and
    the recorder starts. *)
Definition shortcut_while_processing : list Event :=
  processing ++ [ ToggleRecording; Settle 4 StartRecordingR ].

(** A recording is started with the button and the shortcut is pressed to
    stop it. *)
Definition shortcut_stop : list Event :=
  [ loaded;
    ClickRecord; Settle 1 StartRecordingR; Tick 1; Tick 1; Tick 1;
    ToggleRecording ].

(** A recording is in progress. *)
Definition recording : list Event :=
  [ loaded; ClickRecord; Settle 1 StartRecordingR ].


Definition interviewer_recording : list Event :=
  [ loaded;
    ClickSpeaker; Settle 1 (ToggleSpeakerR (mkToggleResult true interviewer));
    ClickRecord; Settle 2 StartRecordingR ].

End Scenario.

Definition world_after (es : list Event) : World :=
  match run es mounted with
  | Some (w, _) => w
  | None => mounted
  end.

(** ** The duration label (lines 215-219, used at line 234) *)

(** [s.padStart(n, c)] for a pad of one character: [s] itself when it is
    long enough, else [c] repeated in front of it up to length [n]. *)
Fixpoint repeat_char (n : nat) (c : ascii) : string :=
  match n with
  | 0 => EmptyString
  | S n' => String c (repeat_char n' c)
  end.

Definition padStart (n : nat) (c : ascii) (s : string) : string :=
  repeat_char (n - String.length s) c +:+ s.

(** [formatDuration]: [Math.floor] of the quotient and the remainder of a
    count of seconds, both printed in decimal as [toString] does. *)
Definition formatDuration (seconds : nat) : string :=
  let mins := seconds / 60 in
  let secs := seconds mod 60 in
  pretty mins +:+ ":" +:+ padStart 2 "0" (pretty secs).

(** ** The cleanup of the effect (lines 94-103)

    Of the cleanup, the part that acts on the world: the timer held by
    the ref is cleared; the ref itself is left as it is.  (The four
    unsubscriptions and the removal of the listener stop the delivery of
    pushes and of the shortcut; they own no state of the world.) *)
Definition cleanup (w : World) : World :=
  match durationIntervalRef (ui w) with
  | Some t => clearInterval t w
  | None => w
  end.

(** ** Vocabulary of the further properties *)

(** The worlds the mounted component can be in. *)
Definition reachable (w : World) : Prop :=
  ∃ (es : list Event) (f : list Effect), run es mounted = Some (w, f).

(** The replies on which the component raises the blocking dialog: a
    rejection of the recorder's start, or of one of the four calls
    awaited by [handleStopRecording] itself. *)
Definition surfaced (e : Event) (w : World) : bool :=
  match e with
  | Settle p (Rejects _) =>
      match pending w !! p with
      | Some (StartRecordingK | StopRecordingK _ | ArrayBufferK _ _
              | TranscribeK _ | AddMessageK _ _) => true
      | _ => false
      end
  | _ => false
  end.

(** A transcription that the component goes on to append. *)
Definition transcribed_as (txt : string) (r : TranscribeResult) : Prop :=
  tr_success r = true ∧ tr_result r = Some (mkTranscript txt).

(** The recording flag, the timer ref and the recorder ref agree. *)
Definition recording_consistent (w : World) : Prop :=
  (isRecording (ui w) = true ↔ is_Some (durationIntervalRef (ui w)))
  ∧ (∀ t, durationIntervalRef (ui w) = Some t → t ∈ intervals w)
  ∧ (isRecording (ui w) = true → is_Some (audioRecorderRef (ui w)))
  ∧ (∀ p, pending w !! p = Some StartRecordingK →
          is_Some (audioRecorderRef (ui w))).

(** Timer handles are handed out in increasing order. *)
Definition timers_fresh (w : World) : Prop :=
  (∀ t, t ∈ intervals w → (t < next_interval w)%positive)
  ∧ (∀ t, durationIntervalRef (ui w) = Some t →
          (t < next_interval w)%positive).

(** A timer that runs and that the ref does not hold. *)
Definition leaked (t : positive) (w : World) : Prop :=
  t ∈ intervals w ∧ durationIntervalRef (ui w) ≠ Some t.

(** Promise handles are handed out in increasing order. *)
Definition promises_fresh (w : World) : Prop :=
  ∀ p k, pending w !! p = Some k → p < next_promise w.

(** The events that can write the displayed suggestion. *)
Definition writes_suggestion (e : Event) (w : World) : bool :=
  match e with
  | ConversationCleared => true
  | Settle p r =>
      match pending w !! p, r with
      | Some ToggleSpeakerK, ToggleSpeakerR result => ts_success result
      | Some (AddMessageK c _), AddMessageR =>
          bool_decide (cl_currentSpeaker c = interviewee)
      | Some (SuggestionsK _), SuggestionsR result =>
          gs_success result && bool_decide (is_Some (gs_suggestions result))
      | _, _ => false
      end
  | _ => false
  end.

(** The events that can write the active speaker. *)
Definition writes_speaker (e : Event) (w : World) : bool :=
  match e with
  | SpeakerChanged _ => true
  | Settle p (ToggleSpeakerR result) =>
      ts_success result &&
      match pending w !! p with Some ToggleSpeakerK => true | _ => false end
  | _ => false
  end.

(** The host's pushes. *)
Definition is_push (e : Event) : bool :=
  match e with
  | MessageAdded _ | SpeakerChanged _ | MessageUpdated _
  | ConversationCleared => true
  | _ => false
  end.

(** ** Further scenarios *)
Module Cases.

(** The interviewer's recording has been stopped and the audio read; the
    transcription is awaited (promise 5). *)
Definition transcribing : list Event :=
  Scenario.interviewer_recording ++
  [ ClickRecord; Settle 3 (StopRecordingR Scenario.blob);
    Settle 4 (ArrayBufferR []) ].

(** The transcription comes back successful and empty. *)
Definition silence : Reply :=
  TranscribeR (mkTranscribeResult true (Some (mkTranscript EmptyString))).

(** The suggestion for the question is on display and nothing is in
    flight but the late toggle. *)
Definition advised : list Event :=
  Scenario.question_asked ++
  [ MessageAdded Scenario.question; Settle 8 (suggested Scenario.advice) ].

(** The record button is pressed twice before the recorder has started
    (promises 1 and 2); both starts then succeed. *)
Definition double_start : list Event :=
  [ Scenario.loaded; ClickRecord; ClickRecord;
    Settle 1 StartRecordingR; Settle 2 StartRecordingR ].

(** The recording started twice is stopped with the button and processed
    to the end without a transcript. *)
Definition double_start_stopped : list Event :=
  double_start ++
  [ ClickRecord; Settle 3 (StopRecordingR Scenario.blob);
    Settle 4 (ArrayBufferR []);
    Settle 5 (TranscribeR (mkTranscribeResult false None)) ].

(** The interviewee's turn is stopped with the button; while it is
    processed the shortcut is pressed (a start, promise 4) and the host
    reports the interviewer as the speaker; the transcript then arrives
    and the append is confirmed. *)
Definition overtaken_turn : list Event :=
  [ ClickRecord; Settle 2 (StopRecordingR Scenario.blob);
    ToggleRecording; SpeakerChanged interviewer;
    Settle 3 (ArrayBufferR []); Settle 5 (Scenario.heard Scenario.a1);
    Settle 6 AddMessageR ].

End Cases.

(** Every append awaited in the world was requested in [f], under the
    speaker its stop captured. *)
Definition appends_recorded (f : list Effect) (w : World) : Prop :=
  ∀ (p : nat) (c : Closure) (txt : string),
    pending w !! p = Some (AddMessageK c txt) →
    AddConversationMessage txt (cl_currentSpeaker c) ∈ f.

(** In the effects [f], read from the left after the effects [seen],
    every request for suggestions comes after a request to append the
    same text under the interviewer. *)
Fixpoint requests_follow_appends (seen f : list Effect) : Prop :=
  match f with
  | [] => True
  | GetAnswerSuggestions q :: f' =>
      AddConversationMessage q interviewer ∈ seen
      ∧ requests_follow_appends (seen ++ [GetAnswerSuggestions q]) f'
  | eff :: f' => requests_follow_appends (seen ++ [eff]) f'
  end.

(** No append is awaited in the world. *)
Definition no_append_pending (w : World) : Prop :=
  ∀ (p : nat) (c : Closure) (txt : string),
    pending w !! p ≠ Some (AddMessageK c txt).

(** The processing flag is up only while a stop is in flight, and promise
    handles are fresh. *)
Definition processing_has_stop (w : World) : Prop :=
  promises_fresh w
  ∧ (isProcessing (ui w) = true →
     ∃ (p : nat) (k : Task), pending w !! p = Some k ∧ in_stop k = true).

(** ** The stop a request belongs to *)

(** The effects of a step in which [handleStopRecording] got past its
    guard: it is there, and only there, that the recorder is asked to
    stop (line 153). *)
Definition invokes_stop (f : list Effect) : bool :=
  existsb (λ x, match x with RecorderStop => true | _ => false end) f.

(** The speaker who was active when the latest stop was invoked: the one
    of the world in which the step is taken if the step invokes a stop,
    else the one recorded so far. *)
Definition latest_stop (last : option Speaker) (w : World)
    (f : list Effect) : option Speaker :=
  if invokes_stop f then Some (currentSpeaker (ui w)) else last.

(** The effects of a run, each stamped with the speaker who was active
    when the latest stop had been invoked at the time of the effect. *)
Fixpoint stamped (last : option Speaker) (es : list Event) (w : World)
    : list (option Speaker * Effect) :=
  match es with
  | [] => []
  | e :: es' =>
      match step e w with
      | Some (w', f) =>
          ((λ x, (latest_stop last w f, x)) <$> f)
          ++ stamped (latest_stop last w f) es' w'
      | None => []
      end
  end.

(** At most one stop is in flight, and the speaker recorded for the
    latest stop is the one its suspended handler captured. *)
Definition stop_recorded (last : option Speaker) (w : World) : Prop :=
  one_stop_at_a_time w
  ∧ ∀ (p : nat) (k : Task) (sp : Speaker),
      pending w !! p = Some k → attribution k = Some sp → last = Some sp.

(** ** Proof steps shared by the case analyses on [step] *)

Ltac unfold_handlers H :=
  unfold step, resume, handleToggleRecording, handleStopRecording_resume,
    handleStartRecording_resume, handleToggleSpeaker_resume,
    loadConversation_resume, fetchAISuggestions_resume, handleStopRecording,
    handleStartRecording, handleToggleSpeaker, fetchAISuggestions,
    onConversationMessageAdded, onSpeakerChanged,
    onConversationMessageUpdated, onConversationCleared in H.

Ltac invert_step H :=
  unfold_handlers H;
  simplify_option_eq;
  repeat (case_match; simplify_option_eq; try discriminate).

Ltac through_recorder_flag :=
  unfold recorder_flag; repeat case_match; try reflexivity.

Ltac effects_cases H :=
  unfold stop_catch in H;
  repeat (apply elem_of_cons in H as [H|H]; [try discriminate H|]);
  try (by apply elem_of_nil in H).

Ltac pending_cases H :=
  unfold stop_finally, recorder_flag in H;
  repeat case_match; cbn in H;
  repeat first
    [ apply lookup_insert_Some in H as [[<- <-]|[? H]]
    | apply lookup_delete_Some in H as [? H] ].

(** * Properties *)

(** ** The conversation log *)

Section LogFacts.

Variable m : ConversationMessage.

Lemma updated_ids (l : list ConversationMessage) :
  id <$> Log.updated m l = id <$> l.
Proof.
  unfold Log.updated.
  induction l as [|x l IH]; [done|].
  cbn [fmap list_fmap] in *. f_equal; [|exact IH].
  by case_decide.
Qed.

Lemma updated_lookup (l : list ConversationMessage) (i : nat) :
  Log.updated m l !! i =
  (λ x, if decide (id x = id m) then m else x) <$> l !! i.
Proof. unfold Log.updated. apply list_lookup_fmap. Qed.

Lemma updated_absent (l : list ConversationMessage) :
  (∀ x, x ∈ l → id x ≠ id m) → Log.updated m l = l.
Proof.
  unfold Log.updated.
  induction l as [|x l IH]; intros Hno; [done|].
  cbn [fmap list_fmap]. f_equal.
  - case_decide as Hx; [|done].
    exfalso. by apply (Hno x); [left|].
  - apply IH. intros y Hy. apply Hno. by right.
Qed.

Lemma added_ids (l : list ConversationMessage) :
  id <$> Log.added m l = (id <$> l) ++ [id m].
Proof. unfold Log.added. by rewrite fmap_app. Qed.

Lemma added_unique_iff (l : list ConversationMessage) :
  Log.unique_ids (Log.added m l) ↔ Log.unique_ids l ∧ id m ∉ id <$> l.
Proof.
  unfold Log.unique_ids. rewrite added_ids, NoDup_app.
  split.
  - intros (Hl & Hdisj & _). split; [done|].
    intros Hin. apply (Hdisj _ Hin). by left.
  - intros [Hl Hfresh]. split_and!; [done| |apply NoDup_singleton].
    intros x Hx Hx'. apply list_elem_of_singleton in Hx'. by subst.
Qed.

End LogFacts.

(** C10.  A message-updated event keeps the length of the log and the
    identifier at every position (so its order), leaves every entry whose
    identifier differs from the message's as it was, and leaves the whole
    log as it was when no entry has the message's identifier: nothing is
    appended. *)
Theorem message_updated_frame (m : ConversationMessage) (w : World) :
  let before := messages (ui w) in
  let after := messages (ui (fst (onConversationMessageUpdated m w))) in
  length after = length before
  ∧ id <$> after = id <$> before
  ∧ (∀ (i : nat) (x : ConversationMessage),
       before !! i = Some x → id x ≠ id m → after !! i = Some x)
  ∧ ((∀ x, x ∈ before → id x ≠ id m) → after = before).
Proof.
  cbn. split_and!.
  - unfold Log.updated. apply length_fmap.
  - apply updated_ids.
  - intros i x Hi Hne. rewrite updated_lookup, Hi. cbn.
    by case_decide.
  - apply updated_absent.
Qed.

Lemma message_updated_frame_witness :
  let w := world_after (Scenario.race) in
  let late := mkMessage "m9" interviewer "late" 3000 (Some true) in
  let fixed := mkMessage "m2" interviewee "I use retries" 2000 (Some true) in
  messages (ui (fst (onConversationMessageUpdated fixed w))) !! 0
    = Some Scenario.question
  ∧ messages (ui (fst (onConversationMessageUpdated late w)))
    = messages (ui w).
Proof.
  cbn zeta. split.
  - apply (message_updated_frame _ (world_after Scenario.race)).
    + vm_compute. reflexivity.
    + vm_compute. discriminate.
  - apply (message_updated_frame _ (world_after Scenario.race)).
    intros x Hx. vm_compute in Hx.
    apply elem_of_cons in Hx as [->|Hx]; [vm_compute; discriminate|].
    apply elem_of_cons in Hx as [->|Hx]; [vm_compute; discriminate|].
    by apply elem_of_nil in Hx.
Defined.

(** C9, as stated, fails: a message-added event whose identifier is
    already in the log is appended all the same. *)
Lemma added_duplicates_identifier : ¬ added_keeps_unique_ids.
Proof.
  intros Hclaim.
  specialize (Hclaim Scenario.question [Scenario.question]).
  assert (Hone : Log.unique_ids [Scenario.question])
    by (unfold Log.unique_ids; apply NoDup_singleton).
  apply Hclaim in Hone.
  revert Hone. vm_compute. intros Hdup.
  apply NoDup_cons in Hdup as [Hnotin _].
  apply Hnotin. left.
Qed.

(** ** Steps: what writes what *)

(** Apart from the host's pushes and the reply to the initial load, no
    event writes the log. *)
Lemma step_frame_log (e : Event) (w w' : World) (f : list Effect) :
  step e w = Some (w', f) → writes_log e w = false →
  messages (ui w') = messages (ui w).
Proof.
  intros Hstep Hno.
  destruct e; try discriminate Hno; cbn in Hno.
  all: invert_step Hstep.
  all: try reflexivity.
  all: through_recorder_flag.
Qed.

(** C9, amended.  Uniqueness of identifiers is kept by every event that
    does not write the log (a load that is rejected or answered without
    success among them), by message-updated and by clear; by
    message-added when the identifier is not yet in the log; by a
    successful initial load when the host's list has unique identifiers.
    A message-added event whose identifier is already in the log is
    appended blindly and leaves two entries with that identifier. *)
Theorem unique_ids_kept (e : Event) (w w' : World) (f : list Effect) :
  Log.unique_ids (messages (ui w)) →
  step e w = Some (w', f) →
  match e with
  | MessageAdded m =>
      Log.unique_ids (messages (ui w')) ↔ id m ∉ id <$> messages (ui w)
  | Settle p (ConversationR result) =>
      if gc_success result
      then Log.unique_ids (messages (ui w'))
           ↔ Log.unique_ids (gc_messages result)
      else Log.unique_ids (messages (ui w'))
  | _ => Log.unique_ids (messages (ui w'))
  end.
Proof.
  intros Hu Hstep.
  destruct e as [| | |m|sp|m| |t|p r].
  1-3, 5, 8: by rewrite (step_frame_log _ _ _ _ Hstep).
  - cbn in Hstep. simplify_eq. cbn.
    rewrite added_unique_iff. tauto.
  - cbn in Hstep. simplify_eq. cbn.
    unfold Log.unique_ids. by rewrite updated_ids.
  - cbn in Hstep. simplify_eq. cbn. apply NoDup_nil_2.
  - destruct r as [err| | | | | | | |result];
      try (invert_step Hstep; try done;
           unfold recorder_flag; by repeat case_match).
Qed.

Lemma unique_ids_kept_witness :
  let w := world_after (Scenario.question_asked ++ [MessageAdded Scenario.question]) in
  Log.unique_ids
    (messages (ui (fst (onConversationMessageAdded Scenario.answer w))))
  ∧ ¬ Log.unique_ids
    (messages (ui (fst (onConversationMessageAdded Scenario.question w)))).
Proof.
  cbn zeta. split.
  - apply (unique_ids_kept (MessageAdded Scenario.answer)
             (world_after (Scenario.question_asked ++ [MessageAdded Scenario.question]))
             _ [ScrollToBottom]).
    + vm_compute. apply NoDup_singleton.
    + reflexivity.
    + vm_compute. intros Hin. apply list_elem_of_singleton in Hin.
      discriminate.
  - intros Hu.
    assert (Hlog : Log.unique_ids (messages (ui (world_after
              (Scenario.question_asked ++ [MessageAdded Scenario.question])))))
      by (vm_compute; apply NoDup_singleton).
    destruct (unique_ids_kept (MessageAdded Scenario.question) _ _
                [ScrollToBottom] Hlog eq_refl) as [Hfresh _].
    apply (Hfresh Hu). vm_compute. left.
Defined.

(** C7.  The component never writes the log while it stops, transcribes
    and appends: the only events that write it are the host's pushes (and
    the reply to the initial load).  A message-added push appends its
    message; in particular the host's confirmation of
    [addConversationMessage] leaves the log as it was. *)
Theorem log_written_only_by_push (e : Event) (w w' : World)
    (f : list Effect) :
  step e w = Some (w', f) →
  match e with
  | MessageAdded m => messages (ui w') = messages (ui w) ++ [m]
  | _ => writes_log e w = false → messages (ui w') = messages (ui w)
  end.
Proof.
  intros Hstep.
  destruct e; try (by apply step_frame_log with (f := f)).
  cbn in Hstep. by simplify_eq.
Qed.

Lemma log_written_only_by_push_witness :
  messages (ui (world_after Scenario.question_asked))
  = messages (ui (world_after Scenario.transcribed)).
Proof.
  apply (log_written_only_by_push (Settle 7 AddMessageR)
           (world_after Scenario.transcribed)
           (world_after Scenario.question_asked)
           [GetAnswerSuggestions Scenario.q1]).
  - vm_compute. reflexivity.
  - vm_compute. reflexivity.
Defined.

(** ** Suggestions *)

(** C8.  A failing suggestion request leaves the world exactly as it was
    when [fetchAISuggestions] resumes: recording phase, processing flag,
    speaker, log and displayed suggestion are untouched.  Nothing is
    alerted; a thrown error is written to the console and an unsuccessful
    answer is dropped.  In the step that delivers the failure the only
    writes are those of the [finally] block of the enclosing
    [handleStopRecording], which runs on every one of its exits. *)
Theorem suggestion_failure_is_silent (r : Reply) (w : World) :
  failing r = true →
  ∃ f : list Effect,
    fetchAISuggestions_resume r w = Some (w, f)
    ∧ existsb is_alert f = false
    ∧ (∀ error, r = Rejects error →
         f = [ConsoleError "Failed to get AI suggestions:"])
    ∧ (∀ (p : nat) (question : string),
         pending w !! p = Some (SuggestionsK question) →
         step (Settle p r) w = Some (stop_finally (settled p w), f)).
Proof.
  intros Hfail.
  destruct r as [error| | | | | |result| |]; try discriminate Hfail.
  - exists [ConsoleError "Failed to get AI suggestions:"].
    split_and!; [done|done|done|].
    intros p question Hp. cbn. by rewrite Hp.
  - cbn in Hfail. apply negb_true_iff in Hfail.
    exists []. split_and!.
    + cbn. by rewrite Hfail.
    + done.
    + discriminate.
    + intros p question Hp. cbn. rewrite Hp. cbn. by rewrite Hfail.
Qed.

Lemma suggestion_failure_is_silent_witness :
  ∃ f : list Effect,
    fetchAISuggestions_resume (Rejects (mkError (Some "quota exceeded")))
      (world_after Scenario.question_asked)
    = Some (world_after Scenario.question_asked, f)
    ∧ existsb is_alert f = false
    ∧ (∀ error, Rejects (mkError (Some "quota exceeded")) = Rejects error →
         f = [ConsoleError "Failed to get AI suggestions:"])
    ∧ (∀ (p : nat) (question : string),
         pending (world_after Scenario.question_asked) !! p
           = Some (SuggestionsK question) →
         step (Settle p (Rejects (mkError (Some "quota exceeded"))))
              (world_after Scenario.question_asked)
         = Some (stop_finally
                   (settled p (world_after Scenario.question_asked)), f)).
Proof.
  apply (suggestion_failure_is_silent
           (Rejects (mkError (Some "quota exceeded")))
           (world_after Scenario.question_asked)).
  reflexivity.
Defined.

(** ** The shortcut's stop and the transcript *)


(** ** Suggestions and the events that invalidate them *)

(** An invalidating event awaits nothing and settles only its own
    promise: a suggestion request that is out stays out. *)
Lemma invalidation_keeps_request (e : Event) (w w' : World)
    (f : list Effect) (p : nat) (q : string) :
  invalidates e w = true →
  step e w = Some (w', f) →
  pending w !! p = Some (SuggestionsK q) →
  pending w' !! p = Some (SuggestionsK q).
Proof.
  intros Hinv Hstep Hp.
  destruct e as [| | | | | | | |p' r]; try discriminate Hinv.
  - cbn in Hstep. by simplify_eq.
  - destruct r; try discriminate Hinv; cbn in Hinv.
    + destruct (pending w !! p') as [[]|] eqn:Hp'; try discriminate Hinv.
      cbn in Hstep. rewrite Hp' in Hstep. cbn in Hstep. simplify_eq.
      unfold recorder_flag. case_match; cbn.
      all: rewrite lookup_delete_ne; [done|congruence].
    + destruct (ts_success r); [|done].
      destruct (pending w !! p') as [[]|] eqn:Hp'; try discriminate Hinv.
      cbn in Hstep. rewrite Hp' in Hstep. cbn in Hstep.
      destruct (ts_success r); simplify_eq; cbn.
      all: rewrite lookup_delete_ne; [done|congruence].
Qed.

(** C1, as stated, fails.  The suggestion for the question is requested;
    the speaker is toggled and an interviewee message is appended; the
    reply then arrives and is displayed. *)
Lemma stale_reply_is_displayed :
  ¬ stale_reply_discarded
  ∧ ∃ (w : World) (f : list Effect),
      run Scenario.race mounted = Some (w, f)
      ∧ currentSpeaker (ui w) = interviewee
      ∧ last (messages (ui w)) = Some Scenario.answer
      ∧ aiSuggestions (ui w) = Some Scenario.advice.
Proof.
  split.
  - intros Hclaim.
    eapply (Hclaim (world_after Scenario.question_asked) 8 Scenario.q1
              [MessageAdded Scenario.question]
              (Settle 2 (ToggleSpeakerR (mkToggleResult true interviewee)))
              [MessageAdded Scenario.answer]
              _ _ _ _ _ _ _ _ Scenario.advice).
    + vm_compute. reflexivity.
    + vm_compute. reflexivity.
    + vm_compute. reflexivity.
    + vm_compute. reflexivity.
    + vm_compute. reflexivity.
    + vm_compute. reflexivity.
    + vm_compute. reflexivity.
  - eexists _, _. split; [vm_compute; reflexivity|].
    split_and!; reflexivity.
Qed.

(** C1, amended.  A successful reply that carries suggestions becomes the
    displayed suggestion when it arrives, in whatever world it arrives;
    and an invalidating event clears only what is displayed at that
    moment: the request it overtakes stays out and its reply will be
    displayed. *)
Theorem suggestion_reply_displayed_on_arrival
    (w : World) (p : nat) (q : string) (s : AISuggestion) :
  pending w !! p = Some (SuggestionsK q) →
  (∃ w' : World,
     step (Settle p (suggested s)) w = Some (w', [])
     ∧ aiSuggestions (ui w') = Some s)
  ∧ (∀ (e : Event) (w1 : World) (f : list Effect),
       invalidates e w = true →
       step e w = Some (w1, f) →
       ∃ w2 : World,
         step (Settle p (suggested s)) w1 = Some (w2, [])
         ∧ aiSuggestions (ui w2) = Some s).
Proof.
  assert (Harrive : ∀ w0 : World,
    pending w0 !! p = Some (SuggestionsK q) →
    ∃ w' : World,
      step (Settle p (suggested s)) w0 = Some (w', [])
      ∧ aiSuggestions (ui w') = Some s).
  { intros w0 Hp. eexists. cbn. rewrite Hp. cbn. split; reflexivity. }
  intros Hp. split; [by apply Harrive|].
  intros e w1 f Hinv Hstep. apply Harrive.
  by eapply invalidation_keeps_request.
Qed.

Lemma suggestion_reply_displayed_on_arrival_witness :
  ∃ w' : World,
    step (Settle 8 (suggested Scenario.advice))
         (world_after (Scenario.question_asked ++ Scenario.meanwhile))
    = Some (w', [])
    ∧ aiSuggestions (ui w') = Some Scenario.advice.
Proof.
  apply (suggestion_reply_displayed_on_arrival
           (world_after (Scenario.question_asked ++ Scenario.meanwhile))
           8 Scenario.q1 Scenario.advice).
  vm_compute. reflexivity.
Defined.

(** C2, as stated, fails: after the suggestion for a question is on
    display, starting the next recording leaves it on display. *)
Lemma start_keeps_suggestion : ¬ cleared_by_each_invalidation.
Proof.
  intros Hclaim.
  assert (Hnone :
    aiSuggestions
      (ui (world_after (Scenario.next_recording_requested
                          ++ [Settle 9 StartRecordingR]))) = None).
  { eapply (Hclaim (Settle 9 StartRecordingR)
              (world_after Scenario.next_recording_requested)).
    - vm_compute. reflexivity.
    - vm_compute. reflexivity. }
  vm_compute in Hnone. discriminate Hnone.
Qed.

(** C2, amended.  After a successful speaker toggle and after a
    conversation-cleared event nothing is displayed, whatever requests
    are pending.  Starting a recording, from the call of
    [handleStartRecording] to the recorder's answer, leaves the displayed
    suggestion as it was. *)
Theorem suggestion_cleared_by_toggle_and_clear
    (e : Event) (w w' : World) (f : list Effect) :
  invalidates e w = true →
  step e w = Some (w', f) →
  match e with
  | Settle _ StartRecordingR => aiSuggestions (ui w') = aiSuggestions (ui w)
  | _ => aiSuggestions (ui w') = None
  end
  ∧ aiSuggestions (ui (handleStartRecording w).1) = aiSuggestions (ui w).
Proof.
  intros Hinv Hstep. split.
  - destruct e as [| | | | | | | |p r]; try discriminate Hinv.
    + cbn in Hstep. by simplify_eq.
    + destruct r; try discriminate Hinv; cbn in Hinv.
      * destruct (pending w !! p) as [[]|] eqn:Hp; try discriminate Hinv.
        cbn in Hstep. rewrite Hp in Hstep. cbn in Hstep. simplify_eq.
        unfold recorder_flag. by case_match.
      * destruct (ts_success r) eqn:Hok; [|done].
        destruct (pending w !! p) as [[]|] eqn:Hp; try discriminate Hinv.
        cbn in Hstep. rewrite Hp in Hstep. cbn in Hstep.
        rewrite Hok in Hstep. by simplify_eq.
  - unfold handleStartRecording. by case_match.
Qed.

Lemma suggestion_cleared_by_toggle_and_clear_witness :
  aiSuggestions
    (ui (world_after (Scenario.next_recording_requested
                        ++ [ConversationCleared]))) = None
  ∧ aiSuggestions
      (ui (handleStartRecording
             (world_after Scenario.next_recording_requested)).1)
    = aiSuggestions (ui (world_after Scenario.next_recording_requested)).
Proof.
  apply (suggestion_cleared_by_toggle_and_clear ConversationCleared
           (world_after Scenario.next_recording_requested)
           (world_after (Scenario.next_recording_requested
                           ++ [ConversationCleared]))
           []).
  - reflexivity.
  - vm_compute. reflexivity.
Defined.

(** ** Guards on start and on the speaker toggle *)

Lemma settle_awaited (k : Task) (r : Reply) (w : World) :
  step (Settle (next_promise w) r) (await k w)
  = resume k r (settled (next_promise w) (await k w)).
Proof. cbn. by rewrite lookup_insert_eq. Qed.

(** C3, as stated, fails: while a stopped recording is still being
    processed the shortcut reaches [handleStartRecording], the recorder
    starts, and the component is recording and processing at once, with a
    new timer running. *)
Lemma start_while_processing_starts :
  ¬ start_rejected_when_busy
  ∧ ∃ (w : World) (f : list Effect),
      run Scenario.shortcut_while_processing mounted = Some (w, f)
      ∧ isRecording (ui w) = true
      ∧ isProcessing (ui w) = true
      ∧ durationIntervalRef (ui w) = Some 2%positive
      ∧ 2%positive ∈ intervals w.
Proof.
  split.
  - intros Hclaim.
    destruct (Hclaim (world_after Scenario.processing)
                (handleStartRecording (world_after Scenario.processing)).1
                (world_after Scenario.shortcut_while_processing)
                [RecorderStart] [] StartRecordingR)
      as (_ & Hsame & _).
    + reflexivity.
    + reflexivity.
    + vm_compute. reflexivity.
    + apply (f_equal isRecording) in Hsame. vm_compute in Hsame.
      discriminate Hsame.
  - eexists _, _. split; [vm_compute; reflexivity|].
    split_and!; reflexivity.
Qed.

(** C3, amended.  Start is kept to the idle state by the record button
    alone: while processing the button dispatches nothing, and while
    recording it invokes stop.  [handleStartRecording] itself does not
    look at the session state.  Invoked while recording or processing, it
    asks the recorder to start; if the recorder starts, the component
    sets [isRecording], resets the duration to 0 and installs a fresh
    timer next to the ones still running; if the recorder refuses, no
    state field changes and the error is alerted. *)
Theorem start_guarded_only_by_button (w : World) :
  busy (ui w) = true →
  step ClickRecord w
  = Some (if isProcessing (ui w) then (w, [])
          else handleStopRecording (render (ui w)) w)
  ∧ (handleStartRecording w).2 = [RecorderStart]
  ∧ (∃ w2 : World,
       step (Settle (next_promise w) StartRecordingR)
            (handleStartRecording w).1 = Some (w2, [])
       ∧ isRecording (ui w2) = true
       ∧ recordingDuration (ui w2) = 0
       ∧ durationIntervalRef (ui w2) = Some (next_interval w)
       ∧ intervals w2 = {[next_interval w]} ∪ intervals w)
  ∧ (∀ error : JsError, ∃ (w2 : World) (f : list Effect),
       step (Settle (next_promise w) (Rejects error))
            (handleStartRecording w).1 = Some (w2, f)
       ∧ existsb is_alert f = true
       ∧ ui w2 = ui (handleStartRecording w).1).
Proof.
  intros Hbusy. split_and!.
  - unfold busy in Hbusy. cbn.
    destruct (isProcessing (ui w)); [done|].
    rewrite orb_false_r in Hbusy. by rewrite Hbusy.
  - done.
  - unfold handleStartRecording.
    destruct (audioRecorderRef (ui w)) eqn:Href; cbn [fst].
    + rewrite settle_awaited. cbn. unfold recorder_flag. cbn.
      rewrite Href. eexists. split; [reflexivity|]. by split_and!.
    + change (next_promise w)
        with (next_promise (set_audioRecorderRef (Some (mkRecorder false)) w))
        at 1.
      rewrite settle_awaited. eexists. split; [reflexivity|]. by split_and!.
  - intros error. unfold handleStartRecording.
    destruct (audioRecorderRef (ui w)) eqn:Href; cbn [fst].
    + rewrite settle_awaited. eexists _, _. by split_and!.
    + change (next_promise w)
        with (next_promise (set_audioRecorderRef (Some (mkRecorder false)) w))
        at 1.
      rewrite settle_awaited. eexists _, _. by split_and!.
Qed.

Lemma start_guarded_only_by_button_witness :
  step ClickRecord (world_after Scenario.processing)
  = Some (world_after Scenario.processing, [])
  ∧ ∃ w2 : World,
      step (Settle 4 StartRecordingR)
           (handleStartRecording (world_after Scenario.processing)).1
      = Some (w2, [])
      ∧ isRecording (ui w2) = true
      ∧ isProcessing (ui w2) = true.
Proof.
  destruct (start_guarded_only_by_button (world_after Scenario.processing))
    as (Hbutton & _ & (w2 & Hstart & Hrec & _) & _).
  - reflexivity.
  - split; [exact Hbutton|].
    exists w2. split; [exact Hstart|]. split; [exact Hrec|].
    vm_compute in Hstart. by simplify_eq.
Defined.

(** C4, as stated, fails: [handleToggleSpeaker], invoked while a
    recording is in progress, asks the host to toggle and adopts the
    speaker the host returns. *)
Lemma toggle_while_recording_toggles : ¬ toggle_rejected_when_busy.
Proof.
  intros Hclaim.
  destruct (Hclaim (world_after Scenario.recording)
              (handleToggleSpeaker (world_after Scenario.recording)).1
              (setAiSuggestions None
                 (setCurrentSpeaker interviewer
                    (settled 2 (handleToggleSpeaker
                                  (world_after Scenario.recording)).1)))
              [ToggleSpeaker] []
              (ToggleSpeakerR (mkToggleResult true interviewer)))
    as [Hsame _].
  - reflexivity.
  - reflexivity.
  - vm_compute. reflexivity.
  - vm_compute in Hsame. discriminate Hsame.
Qed.

(** C4, amended.  While recording or processing the toggle is kept away
    by the speaker button alone, which then dispatches nothing.
    [handleToggleSpeaker] itself does not look at the session state:
    invoked while recording or processing it asks the host to toggle, and
    on a successful answer it adopts the returned speaker and clears the
    displayed suggestion. *)
Theorem toggle_guarded_only_by_button (w : World) (result : ToggleResult) :
  busy (ui w) = true →
  ts_success result = true →
  step ClickSpeaker w = Some (w, [])
  ∧ (handleToggleSpeaker w).2 = [ToggleSpeaker]
  ∧ ∃ w2 : World,
      step (Settle (next_promise w) (ToggleSpeakerR result))
           (handleToggleSpeaker w).1 = Some (w2, [])
      ∧ currentSpeaker (ui w2) = ts_speaker result
      ∧ aiSuggestions (ui w2) = None
      ∧ isRecording (ui w2) = isRecording (ui w)
      ∧ isProcessing (ui w2) = isProcessing (ui w).
Proof.
  intros Hbusy Hok. split_and!.
  - unfold busy in Hbusy. cbn. by rewrite Hbusy.
  - done.
  - unfold handleToggleSpeaker. cbn [fst].
    rewrite settle_awaited. cbn. rewrite Hok.
    eexists. split; [reflexivity|]. by split_and!.
Qed.

Lemma toggle_guarded_only_by_button_witness :
  step ClickSpeaker (world_after Scenario.recording)
  = Some (world_after Scenario.recording, [])
  ∧ ∃ w2 : World,
      step (Settle 2 (ToggleSpeakerR (mkToggleResult true interviewer)))
           (handleToggleSpeaker (world_after Scenario.recording)).1
      = Some (w2, [])
      ∧ currentSpeaker (ui w2) = interviewer
      ∧ isRecording (ui w2) = true.
Proof.
  destruct (toggle_guarded_only_by_button
              (world_after Scenario.recording)
              (mkToggleResult true interviewer))
    as (Hbutton & _ & (w2 & Htoggle & Hspeaker & _ & Hrec & _)).
  - reflexivity.
  - reflexivity.
  - split; [exact Hbutton|].
    exists w2. split; [exact Htoggle|]. split; [exact Hspeaker|].
    rewrite Hrec. reflexivity.
Defined.

(** ** Stopping a recording *)

(** Every suspended handler resumes on every reply its call can give. *)
Lemma resume_total (k : Task) (r : Reply) (w : World) :
  answers k r = true → is_Some (resume k r w).
Proof.
  intros Hans.
  destruct k, r; try discriminate Hans; cbn; repeat case_match; eauto.
Qed.

(** When a resumed [handleStopRecording] awaits nothing further, it has
    gone through its [finally] block: on every exit the processing flag
    is lowered and the duration is 0; [isRecording] is not written. *)
Lemma stop_exit_resets (k : Task) (r : Reply) (w w' : World)
    (f : list Effect) :
  in_stop k = true →
  handleStopRecording_resume k r w = Some (w', f) →
  next_promise w' = next_promise w →
  isProcessing (ui w') = false
  ∧ recordingDuration (ui w') = 0
  ∧ isRecording (ui w') = isRecording (ui w).
Proof.
  intros Hk Hres Hret.
  destruct k; try discriminate Hk.
  all: unfold handleStopRecording_resume, fetchAISuggestions_resume,
         fetchAISuggestions in Hres.
  all: simplify_option_eq; repeat (case_match; simplify_option_eq).
  all: try (by split_and!).
  all: exfalso; revert Hret; unfold recorder_flag;
       repeat case_match; cbn; lia.
Qed.

(** Only a capture that starts raises [isRecording]. *)
Lemma isRecording_stays_lowered (e : Event) (w w' : World)
    (f : list Effect) :
  starts_capture e = false →
  step e w = Some (w', f) →
  isRecording (ui w) = false →
  isRecording (ui w') = false.
Proof.
  intros He Hstep Hlow.
  destruct e as [| | | | | | | |p r]; try destruct r; try discriminate He.
  all: invert_step Hstep; try done.
  all: by through_recorder_flag.
Qed.

Lemma isRecording_stays_lowered_run (es : list Event) (w w' : World)
    (f : list Effect) :
  Forall (λ e, starts_capture e = false) es →
  run es w = Some (w', f) →
  isRecording (ui w) = false →
  isRecording (ui w') = false.
Proof.
  intros Hes. revert w f.
  induction Hes as [|e es He Hes IH]; intros w f Hrun Hlow.
  - cbn in Hrun. by simplify_eq.
  - cbn in Hrun.
    destruct (step e w) as [[w1 f1]|] eqn:Hstep; [|done]. cbn in Hrun.
    destruct (run es w1) as [[w2 f2]|] eqn:Hrest; [|done]. cbn in Hrun.
    simplify_eq.
    eapply IH; [exact Hrest|].
    by eapply isRecording_stays_lowered.
Qed.

(** The record button while recording: the stop passes the guard, lowers
    [isRecording], clears the timer of the ref and raises the processing
    flag before it suspends on the recorder. *)
Lemma button_stop_suspends (w : World) :
  isRecording (ui w) = true →
  isProcessing (ui w) = false →
  is_Some (audioRecorderRef (ui w)) →
  ∃ w1 : World,
    step ClickRecord w = Some (w1, [RecorderStop])
    ∧ isRecording (ui w1) = false
    ∧ isProcessing (ui w1) = true
    ∧ durationIntervalRef (ui w1) = None
    ∧ (∀ t, durationIntervalRef (ui w) = Some t → t ∉ intervals w1)
    ∧ pending w1 !! next_promise w = Some (StopRecordingK (render (ui w))).
Proof.
  intros Hrec Hproc [recorder Href].
  unfold step, handleStopRecording, render. rewrite Hproc, Hrec, Href.
  cbn. destruct (durationIntervalRef (ui w)) as [t|] eqn:Ht; cbn.
  - eexists. split; [reflexivity|]. cbn. split_and!; try done.
    + intros t' Heq. assert (t' = t) as -> by congruence.
      rewrite elem_of_difference, elem_of_singleton. tauto.
    + apply lookup_insert_eq.
  - eexists. split; [reflexivity|]. cbn. split_and!; try done.
    apply lookup_insert_eq.
Qed.

(** The stop of the record button on all its exits: it is invoked while
    recording; events are delivered, none of them a capture that starts;
    a reply then resumes the stop, which awaits nothing further.  The
    session is idle and the duration is 0. *)
Lemma button_stop_ends_idle (w w1 w2 : World) (es : list Event)
    (f1 f2 : list Effect) (p : nat) (k : Task) (r : Reply) :
  isRecording (ui w) = true →
  isProcessing (ui w) = false →
  is_Some (audioRecorderRef (ui w)) →
  Forall (λ e, starts_capture e = false) es →
  run (ClickRecord :: es) w = Some (w1, f1) →
  pending w1 !! p = Some k →
  in_stop k = true →
  step (Settle p r) w1 = Some (w2, f2) →
  next_promise w2 = next_promise w1 →
  isRecording (ui w2) = false
  ∧ isProcessing (ui w2) = false
  ∧ recordingDuration (ui w2) = 0.
Proof.
  intros Hrec Hproc Href Hes Hrun Hp Hk Hstep Hret.
  destruct (button_stop_suspends w Hrec Hproc Href)
    as (w0 & Hclick & Hlow & _).
  cbn [run] in Hrun. rewrite Hclick in Hrun. cbn in Hrun.
  destruct (run es w0) as [[w1' f1']|] eqn:Hrest; [|done]. cbn in Hrun.
  simplify_eq.
  pose proof (isRecording_stays_lowered_run es w0 w1 f1' Hes Hrest Hlow)
    as Hlow1.
  cbn in Hstep. rewrite Hp in Hstep. cbn in Hstep.
  assert (Hres : handleStopRecording_resume k r (settled p w1)
                 = Some (w2, f2)) by (by destruct k).
  destruct (stop_exit_resets k r (settled p w1) w2 f2 Hk Hres Hret)
    as (Hidle & Hzero & Hsame).
  split_and!; [|done|done].
  by rewrite Hsame.
Qed.

(** The shortcut routes on the recorder's own flag, which is current,
    but the [handleStopRecording] it calls is the one of the first
    render: its [isRecording] is the initial [false], the guard at line
    143 returns, and nothing is stopped.  Whatever the recorder's flag
    says, the shortcut leaves the session flags and the duration as they
    were and never asks the recorder to stop. *)
Lemma shortcut_never_stops (w w' : World) (f : list Effect) :
  step ToggleRecording w = Some (w', f) →
  isRecording (ui w') = isRecording (ui w)
  ∧ isProcessing (ui w') = isProcessing (ui w)
  ∧ recordingDuration (ui w') = recordingDuration (ui w)
  ∧ intervals w' = intervals w
  ∧ RecorderStop ∉ f.
Proof.
  intros Hstep.
  assert (Hcases : (w', f) = (w, [])
                   ∨ (w', f) = handleStartRecording w).
  { cbn in Hstep. unfold handleToggleRecording, handleStopRecording in Hstep.
    cbn in Hstep. repeat case_match; simplify_eq; auto. }
  destruct Hcases as [Heq|Heq].
  - simplify_eq. split_and!; try done. intros Hin. by apply elem_of_nil in Hin.
  - unfold handleStartRecording in Heq.
    assert (Hf : f = [RecorderStart]) by (by simplify_eq).
    split_and!; try (case_match; by simplify_eq).
    rewrite Hf. intros Hin.
    apply elem_of_cons in Hin as [Hin|Hin]; [discriminate Hin|].
    by apply elem_of_nil in Hin.
Qed.

(** C5, at the input on which the component departs from it: a recording
    is started with the button, three seconds pass, and the shortcut is
    pressed to stop.  The stop has returned (nothing is suspended), yet
    the session is still recording, the duration still counts and its
    timer is still running; the recorder was never asked to stop. *)
Theorem shortcut_stop_keeps_recording :
  ∃ (w : World) (f : list Effect),
    run Scenario.shortcut_stop mounted = Some (w, f)
    ∧ pending w = ∅
    ∧ isRecording (ui w) = true
    ∧ recordingDuration (ui w) = 3
    ∧ durationIntervalRef (ui w) = Some 1%positive
    ∧ 1%positive ∈ intervals w
    ∧ RecorderStop ∉ f.
Proof.
  eexists _, _. split; [vm_compute; reflexivity|].
  split_and!; try reflexivity.
  intros Hin.
  repeat (apply elem_of_cons in Hin as [Hin|Hin]; [discriminate Hin|]).
  by apply elem_of_nil in Hin.
Qed.

(** ** One stop at a time *)

Section OneStop.

Variables w w' : World.
Hypothesis Hinv : one_stop_at_a_time w.

(** A step that suspends no stop and lowers no flag. *)
Lemma one_stop_frame :
  (∀ q k, pending w' !! q = Some k → in_stop k = true →
          pending w !! q = Some k) →
  (isProcessing (ui w) = true → isProcessing (ui w') = true) →
  one_stop_at_a_time w'.
Proof.
  destruct Hinv as [Hflag Hone]. intros Hsub Hkeep. split.
  - intros q k Hq Hk. apply Hkeep. eapply Hflag; eauto.
  - intros q1 q2 k1 k2 Hq1 Hk1 Hq2 Hk2. eapply Hone; eauto.
Qed.

(** A step that resumes the stop in flight: it either suspends again, the
    flag untouched, or leaves no stop behind. *)
Lemma one_stop_resumed (p q0 : nat) (k : Task) :
  pending w !! p = Some k → in_stop k = true →
  (∀ q k2, pending w' !! q = Some k2 → in_stop k2 = true →
     (q = q0 ∧ isProcessing (ui w') = isProcessing (ui w))
     ∨ (q ≠ p ∧ pending w !! q = Some k2)) →
  one_stop_at_a_time w'.
Proof.
  destruct Hinv as [Hflag Hone]. intros Hp Hk Hsub.
  assert (Hnew : ∀ q k2, pending w' !! q = Some k2 → in_stop k2 = true →
            q = q0 ∧ isProcessing (ui w') = isProcessing (ui w)).
  { intros q k2 Hq Hk2.
    destruct (Hsub q k2 Hq Hk2) as [?|[Hne Hold]]; [done|].
    destruct Hne. eapply Hone; eauto. }
  split.
  - intros q k2 Hq Hk2. destruct (Hnew q k2 Hq Hk2) as [_ ->]. eauto.
  - intros q1 q2 k1 k2 Hq1 Hk1 Hq2 Hk2.
    destruct (Hnew q1 k1 Hq1 Hk1) as [-> _].
    by destruct (Hnew q2 k2 Hq2 Hk2) as [-> _].
Qed.

(** A step that invokes a stop while none is being processed. *)
Lemma one_stop_invoked (q0 : nat) :
  isProcessing (ui w) = false →
  isProcessing (ui w') = true →
  (∀ q k2, pending w' !! q = Some k2 → in_stop k2 = true →
     q = q0 ∨ pending w !! q = Some k2) →
  one_stop_at_a_time w'.
Proof.
  destruct Hinv as [Hflag Hone]. intros Hidle Hbusy Hsub.
  assert (Hnew : ∀ q k2, pending w' !! q = Some k2 → in_stop k2 = true →
            q = q0).
  { intros q k2 Hq Hk2. destruct (Hsub q k2 Hq Hk2) as [?|Hold]; [done|].
    specialize (Hflag q k2 Hold Hk2). congruence. }
  split; [done|].
  intros q1 q2 k1 k2 Hq1 Hk1 Hq2 Hk2.
  rewrite (Hnew q1 k1 Hq1 Hk1). by rewrite (Hnew q2 k2 Hq2 Hk2).
Qed.

End OneStop.

Lemma step_one_stop (e : Event) (w w' : World) (f : list Effect) :
  step e w = Some (w', f) →
  one_stop_at_a_time w → one_stop_at_a_time w'.
Proof.
  intros Hstep Hinv.
  destruct e.
  all: invert_step Hstep.
  all: try done.
  all: match goal with Hi : one_stop_at_a_time ?w0 |- _ =>
    first
    [ solve [ apply (one_stop_frame w0); [done| |];
        [ intros ? ? Hq Hk; pending_cases Hq; done
        | unfold stop_finally, recorder_flag; repeat case_match; done ] ]
    | solve [ match goal with
        | Hp : pending w0 !! ?p = Some ?k |- _ =>
            apply (one_stop_resumed w0 _ Hi p (next_promise w0) k Hp eq_refl);
            intros ? ? Hq Hk; pending_cases Hq; eauto
        end ]
    | solve [
        apply (one_stop_invoked w0 _ Hi (next_promise w0)); [done|done|];
        intros ? ? Hq Hk; pending_cases Hq; eauto ]
    | idtac ] end.
  match goal with
  | Hp : pending w !! ?p = Some (StopRecordingK _) |- _ =>
      apply (one_stop_resumed w _ Hinv p (next_promise w) _ Hp eq_refl)
  end.
  intros q k2 Hq Hk2. unfold recorder_flag in *.
  destruct (audioRecorderRef (ui (settled p w))); cbn in *.
  all: apply lookup_insert_Some in Hq as [[<- <-]|[? Hq]]; [by left|].
  all: apply lookup_delete_Some in Hq as [? Hq]; by right.
Qed.

Lemma run_one_stop (es : list Event) (w w' : World) (f : list Effect) :
  run es w = Some (w', f) →
  one_stop_at_a_time w → one_stop_at_a_time w'.
Proof.
  revert w f. induction es as [|e es IH]; intros w f Hrun Hinv.
  - cbn in Hrun. by simplify_eq.
  - cbn in Hrun.
    destruct (step e w) as [[w1 f1]|] eqn:Hstep; [|done]. cbn in Hrun.
    destruct (run es w1) as [[w2 f2]|] eqn:Hrest; [|done]. cbn in Hrun.
    simplify_eq.
    eapply IH; [exact Hrest|]. by eapply step_one_stop.
Qed.

Lemma mounted_one_stop : one_stop_at_a_time mounted.
Proof.
  split.
  - intros p k Hp Hk. cbn in Hp.
    apply lookup_insert_Some in Hp as [[_ <-]|[_ Hp]]; [done|].
    by rewrite lookup_empty in Hp.
  - intros p1 p2 k1 k2 Hp1 Hk1. cbn in Hp1.
    apply lookup_insert_Some in Hp1 as [[_ <-]|[_ Hp1]]; [done|].
    by rewrite lookup_empty in Hp1.
Qed.

(** * Further properties *)

(** ** The duration label *)

Lemma string_app_cons (c : ascii) (s t : string) :
  String c s +:+ t = String c (s +:+ t).
Proof. reflexivity. Qed.

Lemma string_length_app (s1 s2 : string) :
  String.length (s1 +:+ s2) = String.length s1 + String.length s2.
Proof.
  induction s1 as [|c s1 IH]; [done|].
  rewrite string_app_cons. cbn. by rewrite IH.
Qed.

(** Two concatenations with tails of equal length agree part by part. *)
Lemma string_app_inj_tail (s1 s2 t1 t2 : string) :
  String.length t1 = String.length t2 →
  s1 +:+ t1 = s2 +:+ t2 → s1 = s2 ∧ t1 = t2.
Proof.
  intros Hlen. revert s2.
  induction s1 as [|c s1 IH]; intros [|c' s2] Heq.
  - done.
  - apply (f_equal String.length) in Heq.
    rewrite !string_length_app in Heq. cbn in Heq. lia.
  - apply (f_equal String.length) in Heq.
    rewrite !string_length_app in Heq. cbn in Heq. lia.
  - rewrite !string_app_cons in Heq.
    injection Heq as -> Heq. destruct (IH s2 Heq) as [-> ->]. done.
Qed.

Lemma below_60 (P : nat → Prop) `{∀ s, Decision (P s)} :
  bool_decide (Forall P (seq 0 60)) = true → ∀ s, s < 60 → P s.
Proof.
  intros Hall s Hs. apply bool_decide_eq_true in Hall.
  eapply Forall_forall in Hall; [exact Hall|].
  apply elem_of_seq. lia.
Qed.

Lemma seconds_field_length (s : nat) :
  s < 60 → String.length (padStart 2 "0" (pretty s)) = 2.
Proof.
  revert s.
  apply (below_60 (λ s, String.length (padStart 2 "0" (pretty s)) = 2)).
  vm_compute. reflexivity.
Qed.

Lemma seconds_field_inj (s s' : nat) :
  s < 60 → s' < 60 →
  padStart 2 "0" (pretty s) = padStart 2 "0" (pretty s') → s = s'.
Proof.
  intros Hs Hs'.
  assert (Hall : Forall (λ s',
            padStart 2 "0" (pretty s) = padStart 2 "0" (pretty s') → s = s')
            (seq 0 60)).
  { revert s Hs.
    apply (below_60 (λ s, Forall (λ s',
             padStart 2 "0" (pretty s) = padStart 2 "0" (pretty s') → s = s')
             (seq 0 60))).
    vm_compute. reflexivity. }
  eapply Forall_forall in Hall; [exact Hall|].
  apply elem_of_seq. lia.
Qed.

(** X1.  The label is the decimal minutes, a colon, and a seconds field
    of exactly two characters: the decimal seconds, with a zero in front
    exactly when they are below ten.  Minutes are not folded into hours. *)
Theorem formatDuration_fields (seconds : nat) :
  ∃ field : string,
    formatDuration seconds = pretty (seconds / 60) +:+ ":" +:+ field
    ∧ String.length field = 2
    ∧ field = (if decide (seconds mod 60 < 10)
               then "0" +:+ pretty (seconds mod 60)
               else pretty (seconds mod 60)).
Proof.
  exists (padStart 2 "0" (pretty (seconds mod 60))).
  assert (Hlt : seconds mod 60 < 60) by (apply Nat.mod_upper_bound; lia).
  split_and!; [done|by apply seconds_field_length|].
  revert Hlt. generalize (seconds mod 60).
  apply (below_60 (λ s, padStart 2 "0" (pretty s)
           = if decide (s < 10) then "0" +:+ pretty s else pretty s)).
  vm_compute. reflexivity.
Qed.

(** X2.  Two different durations never show the same label. *)
Theorem formatDuration_inj (a b : nat) :
  formatDuration a = formatDuration b → a = b.
Proof.
  intros Heq.
  assert (Ha : a mod 60 < 60) by (apply Nat.mod_upper_bound; lia).
  assert (Hb : b mod 60 < 60) by (apply Nat.mod_upper_bound; lia).
  pose proof (seconds_field_length _ Ha) as Hla.
  pose proof (seconds_field_length _ Hb) as Hlb.
  pose proof (Nat.div_mod_eq a 60) as Hda.
  pose proof (Nat.div_mod_eq b 60) as Hdb.
  unfold formatDuration in Heq. cbv zeta in Heq.
  revert Heq Ha Hb Hla Hlb Hda Hdb.
  generalize (a / 60) (a mod 60) (b / 60) (b mod 60).
  intros ma sa mb sb Heq Ha Hb Hla Hlb Hda Hdb.
  assert (Hparts : pretty ma = pretty mb
                   ∧ String ":" (padStart 2 "0" (pretty sa))
                     = String ":" (padStart 2 "0" (pretty sb))).
  { apply string_app_inj_tail; [|exact Heq]. cbn. lia. }
  destruct Hparts as [Hmin Hsec].
  apply (inj pretty) in Hmin.
  assert (sa = sb) by (apply seconds_field_inj; congruence).
  lia.
Qed.

(** ** What is surfaced, appended and displayed *)

Lemma or_else_nonempty (error : JsError) (fallback : string) :
  fallback ≠ EmptyString → or_else error fallback ≠ EmptyString.
Proof.
  intros Hfb. unfold or_else.
  destruct (message error) as [m|]; [|done]. by case_decide.
Qed.

(** X3.  The blocking dialog is raised exactly when the recorder's start,
    the recorder's stop, the reading of the audio, the transcription or
    the append throws: never by a load, a toggle or a suggestion request
    that fails, by an answer that merely reports no success, by a push, a
    tick or a click.  What it shows is never empty. *)
Theorem alert_exactly_on_thrown_capture_errors
    (e : Event) (w w' : World) (f : list Effect) :
  step e w = Some (w', f) →
  existsb is_alert f = surfaced e w
  ∧ ∀ msg, Alert msg ∈ f → msg ≠ EmptyString.
Proof.
  intros Hstep. split.
  - destruct e as [| | | | | | | |p r]; try destruct r; cbn [surfaced].
    all: invert_step Hstep; reflexivity.
  - intros msg Hin.
    destruct e as [| | | | | | | |p r].
    all: invert_step Hstep; effects_cases Hin.
    all: simplify_eq; by apply or_else_nonempty.
Qed.

Lemma alert_exactly_on_thrown_capture_errors_witness :
  ∃ (w' : World) (f : list Effect),
    step (Settle 5 (Rejects (mkError None))) (world_after Cases.transcribing)
    = Some (w', f)
    ∧ existsb is_alert f = true
    ∧ ∃ (w'' : World) (f' : list Effect),
        step (Settle 5 (TranscribeR (mkTranscribeResult false None)))
             (world_after Cases.transcribing) = Some (w'', f')
        ∧ existsb is_alert f' = false.
Proof.
  eexists _, _. split; [vm_compute; reflexivity|]. split.
  - refine (eq_trans (proj1 (alert_exactly_on_thrown_capture_errors
             (Settle 5 (Rejects (mkError None)))
             (world_after Cases.transcribing) _ _ _)) _).
    + vm_compute. reflexivity.
    + vm_compute. reflexivity.
  - eexists _, _. split; [vm_compute; reflexivity|]. reflexivity.
Defined.

(** X4.  The host is asked to append a message exactly when a
    transcription comes back successful and with a result.  When it
    does, the step requests the append of that text, also when it is
    empty, under the speaker captured by the stop, and does nothing else
    to the outside.  No other event, and no transcription that throws,
    reports no success or has no result, asks for an append. *)
Theorem append_requested_exactly_for_transcripts
    (e : Event) (w : World) (txt : string) (sp : Speaker) :
  (∀ (p : nat) (c : Closure) (r : TranscribeResult),
     pending w !! p = Some (TranscribeK c) →
     transcribed_as txt r →
     ∃ w' : World,
       step (Settle p (TranscribeR r)) w
       = Some (w', [AddConversationMessage txt (cl_currentSpeaker c)])
       ∧ pending w' !! next_promise w = Some (AddMessageK c txt))
  ∧ (∀ (w' : World) (f : list Effect),
       step e w = Some (w', f) →
       AddConversationMessage txt sp ∈ f →
       ∃ (p : nat) (c : Closure) (r : TranscribeResult),
         e = Settle p (TranscribeR r)
         ∧ pending w !! p = Some (TranscribeK c)
         ∧ transcribed_as txt r
         ∧ sp = cl_currentSpeaker c
         ∧ f = [AddConversationMessage txt sp]).
Proof.
  split.
  - intros p c r Hp [Hok Hres]. cbn. rewrite Hp. cbn.
    rewrite Hok, Hres. cbn. eexists. split; [reflexivity|].
    cbn. apply lookup_insert_eq.
  - intros w' f Hstep Hin.
    destruct e as [| | | | | | | |p r].
    all: invert_step Hstep; effects_cases Hin.
    simplify_eq. eexists _, _, _. split_and!; try done.
    match goal with t : Transcript |- _ => by destruct t end.
Qed.

Lemma append_requested_exactly_for_transcripts_witness :
  ∃ w' : World,
    step (Settle 5 Cases.silence) (world_after Cases.transcribing)
    = Some (w', [AddConversationMessage EmptyString interviewer])
    ∧ pending w' !! next_promise (world_after Cases.transcribing)
      = Some (AddMessageK (mkClosure true interviewer) EmptyString).
Proof.
  apply (proj1 (append_requested_exactly_for_transcripts
                  (Settle 5 Cases.silence)
                  (world_after Cases.transcribing)
                  EmptyString interviewer)
               5 (mkClosure true interviewer)
               (mkTranscribeResult true (Some (mkTranscript EmptyString)))).
  - vm_compute. reflexivity.
  - split; reflexivity.
Defined.

(** X5.  The displayed suggestion is written by four events only: the
    conversation-cleared push, a successful toggle reply, the
    confirmation of an append made for the interviewee, and a successful
    suggestion reply that carries suggestions.  Every other event leaves
    it as it is: a message push, the speaker-changed push, a start, a
    tick, a click, any failure. *)
Theorem suggestion_written_by_four_events_only
    (e : Event) (w w' : World) (f : list Effect) :
  step e w = Some (w', f) →
  writes_suggestion e w = false →
  aiSuggestions (ui w') = aiSuggestions (ui w).
Proof.
  intros Hstep Hno.
  destruct e as [| | | | | | | |p r]; try discriminate Hno;
    cbn [writes_suggestion] in Hno.
  all: invert_step Hstep; try reflexivity.
  all: try (by through_recorder_flag).
  all: discriminate Hno.
Qed.

Lemma suggestion_written_by_four_events_only_witness :
  ∃ w' : World,
    step (SpeakerChanged interviewee) (world_after Cases.advised)
    = Some (w', [])
    ∧ currentSpeaker (ui w') = interviewee
    ∧ aiSuggestions (ui w') = Some Scenario.advice.
Proof.
  eexists. split; [reflexivity|]. split; [reflexivity|].
  etrans.
  - apply (suggestion_written_by_four_events_only
             (SpeakerChanged interviewee) (world_after Cases.advised) _ []);
      reflexivity.
  - vm_compute. reflexivity.
Defined.

(** X6.  The active speaker is written by the host only: by the
    speaker-changed push and by a successful toggle reply.  The component
    never changes it on its own, whatever is recorded, stopped, cleared
    or fails. *)
Theorem speaker_written_by_host_only
    (e : Event) (w w' : World) (f : list Effect) :
  step e w = Some (w', f) →
  writes_speaker e w = false →
  currentSpeaker (ui w') = currentSpeaker (ui w).
Proof.
  intros Hstep Hno.
  destruct e as [| | | | | | | |p r]; try discriminate Hno;
    cbn [writes_speaker] in Hno.
  all: invert_step Hstep; try reflexivity.
  all: try (by through_recorder_flag).
  all: discriminate Hno.
Qed.

Lemma speaker_written_by_host_only_witness :
  ∃ (w' : World) (f : list Effect),
    step (Settle 2 (ToggleSpeakerR (mkToggleResult false interviewee)))
         (world_after Cases.advised) = Some (w', f)
    ∧ currentSpeaker (ui w') = interviewer.
Proof.
  eexists _, _. split; [vm_compute; reflexivity|].
  etrans.
  - eapply (speaker_written_by_host_only
              (Settle 2 (ToggleSpeakerR (mkToggleResult false interviewee)))
              (world_after Cases.advised)).
    + vm_compute. reflexivity.
    + reflexivity.
  - vm_compute. reflexivity.
Defined.

(** X7.  A push from the host never disturbs the session: the recording
    and processing flags, the duration, the recorder, the timers and the
    suspended handlers are as they were, and no collaborator is called.
    A conversation cleared in the middle of a recording leaves the
    recording running. *)
Theorem push_leaves_session (e : Event) (w w' : World) (f : list Effect) :
  is_push e = true →
  step e w = Some (w', f) →
  isRecording (ui w') = isRecording (ui w)
  ∧ isProcessing (ui w') = isProcessing (ui w)
  ∧ recordingDuration (ui w') = recordingDuration (ui w)
  ∧ audioRecorderRef (ui w') = audioRecorderRef (ui w)
  ∧ durationIntervalRef (ui w') = durationIntervalRef (ui w)
  ∧ intervals w' = intervals w
  ∧ pending w' = pending w
  ∧ (f = [] ∨ f = [ScrollToBottom]).
Proof.
  intros Hpush Hstep.
  destruct e; try discriminate Hpush; cbn in Hstep; simplify_eq.
  all: split_and!; auto.
Qed.

Lemma push_leaves_session_witness :
  ∃ w' : World,
    step ConversationCleared (world_after Scenario.recording) = Some (w', [])
    ∧ isRecording (ui w') = true
    ∧ messages (ui w') = [].
Proof.
  eexists. split; [reflexivity|]. split; [|reflexivity].
  etrans.
  - apply (push_leaves_session ConversationCleared
             (world_after Scenario.recording) _ []); reflexivity.
  - vm_compute. reflexivity.
Defined.

(** ** Invariants of the reachable worlds *)

Lemma run_invariant (I : World → Prop) :
  (∀ e w w' f, step e w = Some (w', f) → I w → I w') →
  ∀ es w w' f, run es w = Some (w', f) → I w → I w'.
Proof.
  intros Hstep es. induction es as [|e es IH]; intros w w' f Hrun Hw.
  - cbn in Hrun. by simplify_eq.
  - cbn in Hrun.
    destruct (step e w) as [[w1 f1]|] eqn:He; [|done]. cbn in Hrun.
    destruct (run es w1) as [[w2 f2]|] eqn:Hrest; [|done]. cbn in Hrun.
    simplify_eq. eapply IH; [exact Hrest|]. by eapply Hstep.
Qed.

Lemma reachable_invariant (I : World → Prop) :
  (∀ e w w' f, step e w = Some (w', f) → I w → I w') →
  I mounted → ∀ w, reachable w → I w.
Proof.
  intros Hstep Hinit w (es & f & Hrun).
  by eapply (run_invariant I Hstep es mounted w f).
Qed.

Lemma step_recording_consistent (e : Event) (w w' : World)
    (f : list Effect) :
  step e w = Some (w', f) →
  recording_consistent w → recording_consistent w'.
Proof.
  intros Hstep (Hiff & Hlive & Hrec & Hstart).
  destruct e.
  all: invert_step Hstep.
  all: try (by split_and!).
  all: unfold recording_consistent, stop_finally, recorder_flag.
  all: repeat case_match; cbn in *.
  all: split_and!; try done.
  all: try (intros q Hq;
            repeat first
              [ apply lookup_insert_Some in Hq as [[_ Hq]|[_ Hq]]
              | apply lookup_delete_Some in Hq as [_ Hq] ];
            try discriminate Hq; by eauto).
  all: try (intros t Ht; simplify_eq;
            apply elem_of_union_l, elem_of_singleton; done).
  all: try (by eauto).
  all: try (by destruct Hiff; split; eauto).
  all: try (split; [discriminate|]; by intros []).
  all: try (split; [by eauto|done]).
  all: exfalso;
    first [ destruct (Hrec eq_refl) as [? Hx]; discriminate Hx
          | destruct Hiff as [Hx _]; destruct (Hx eq_refl) as [? Hy];
            discriminate Hy ].
Qed.

Lemma mounted_recording_consistent : recording_consistent mounted.
Proof.
  split_and!; cbn; try done.
  intros p Hp.
  apply lookup_insert_Some in Hp as [[_ Hp]|[_ Hp]]; [discriminate Hp|].
  by rewrite lookup_empty in Hp.
Qed.

(** X8.  In every state the mounted component can reach: the component
    shows a recording exactly when the timer ref holds a handle; the
    handle held is a running timer; and while a recording is shown, or a
    start is awaited, the recorder has been created. *)
Theorem recording_flag_timer_and_recorder_agree (w : World) :
  reachable w → recording_consistent w.
Proof.
  apply (reachable_invariant recording_consistent).
  - exact step_recording_consistent.
  - exact mounted_recording_consistent.
Qed.

Lemma recording_flag_timer_and_recorder_agree_witness :
  recording_consistent (world_after Cases.double_start).
Proof.
  apply recording_flag_timer_and_recorder_agree.
  eexists Cases.double_start, _. vm_compute. reflexivity.
Defined.

(** X9.  In every reachable state in which the record button shows Stop
    and is enabled, pressing it does stop: the guard at line 143 lets it
    through, the recorder is asked to stop, the flags go from recording
    to processing, the timer held by the ref is cancelled and the ref
    emptied, and the handler waits for the audio. *)
Theorem enabled_stop_button_stops (w : World) :
  reachable w →
  isRecording (ui w) = true →
  isProcessing (ui w) = false →
  ∃ w1 : World,
    step ClickRecord w = Some (w1, [RecorderStop])
    ∧ isRecording (ui w1) = false
    ∧ isProcessing (ui w1) = true
    ∧ durationIntervalRef (ui w1) = None
    ∧ (∀ t, durationIntervalRef (ui w) = Some t → t ∉ intervals w1)
    ∧ pending w1 !! next_promise w = Some (StopRecordingK (render (ui w))).
Proof.
  intros Hreach Hrec Hproc.
  apply button_stop_suspends; [done|done|].
  assert (Hinv : recording_consistent w).
  { revert Hreach. apply (reachable_invariant recording_consistent).
    - exact step_recording_consistent.
    - exact mounted_recording_consistent. }
  destruct Hinv as (_ & _ & Hrecorder & _). by apply Hrecorder.
Qed.

Lemma enabled_stop_button_stops_witness :
  ∃ w1 : World,
    step ClickRecord (world_after Cases.double_start)
    = Some (w1, [RecorderStop])
    ∧ isRecording (ui w1) = false
    ∧ isProcessing (ui w1) = true
    ∧ durationIntervalRef (ui w1) = None
    ∧ (∀ t, durationIntervalRef (ui (world_after Cases.double_start))
            = Some t → t ∉ intervals w1)
    ∧ pending w1 !! next_promise (world_after Cases.double_start)
      = Some (StopRecordingK
                (render (ui (world_after Cases.double_start)))).
Proof.
  apply enabled_stop_button_stops.
  - eexists Cases.double_start, _. vm_compute. reflexivity.
  - vm_compute. reflexivity.
  - vm_compute. reflexivity.
Defined.


(** ** The duration timer *)




Lemma step_timers_fresh (e : Event) (w w' : World) (f : list Effect) :
  step e w = Some (w', f) → timers_fresh w → timers_fresh w'.
Proof.
  intros Hstep [Hlive Href].
  destruct e.
  all: invert_step Hstep.
  all: try (by split).
  all: unfold timers_fresh, stop_finally, recorder_flag.
  all: repeat case_match; cbn in *.
  all: split.
  all: try done.
  all: try (intros t Ht; apply elem_of_difference in Ht as [Ht _]; by eauto).
  all: try (intros t Ht; apply elem_of_union in Ht as [Ht|Ht];
            [apply elem_of_singleton in Ht; subst; lia
            |specialize (Hlive t Ht); lia]).
  all: intros t Ht; simplify_eq; lia.
Qed.

Lemma mounted_timers_fresh : timers_fresh mounted.
Proof.
  split; cbn; [|done].
  intros t Ht. by apply not_elem_of_empty in Ht.
Qed.

Lemma step_leaked (t : positive) (e : Event) (w w' : World)
    (f : list Effect) :
  step e w = Some (w', f) →
  timers_fresh w ∧ leaked t w → timers_fresh w' ∧ leaked t w'.
Proof.
  intros Hstep [Hfresh Hleak].
  split; [by eapply step_timers_fresh|].
  destruct Hfresh as [Hlive Href]. destruct Hleak as [Hin Hne].
  specialize (Hlive t Hin).
  destruct e.
  all: invert_step Hstep.
  all: try (by split).
  all: unfold leaked, stop_finally, recorder_flag.
  all: repeat case_match; cbn in *.
  all: split.
  all: try done.
  all: try (apply elem_of_union_r; done).
  all: try (apply elem_of_difference; split; [done|];
            rewrite elem_of_singleton; congruence).
  all: intros Heq; simplify_eq; lia.
Qed.

(** X11.  A timer that is running without being held by the ref is never
    cancelled: whatever happens next, a stop and the cleanup of the
    effect included, it keeps running, the ref never holds it again, and
    each of its firings adds a second to the duration. *)
Theorem leaked_timer_runs_forever
    (t : positive) (es : list Event) (w w' : World) (f : list Effect) :
  reachable w →
  leaked t w →
  run es w = Some (w', f) →
  leaked t w'
  ∧ t ∈ intervals (cleanup w')
  ∧ ∃ w'' : World,
      step (Tick t) w' = Some (w'', [])
      ∧ recordingDuration (ui w'') = S (recordingDuration (ui w')).
Proof.
  intros Hreach Hleak Hrun.
  assert (Hfresh : timers_fresh w).
  { revert Hreach. apply (reachable_invariant timers_fresh).
    - exact step_timers_fresh.
    - exact mounted_timers_fresh. }
  assert (Hend : timers_fresh w' ∧ leaked t w').
  { eapply (run_invariant (λ w0, timers_fresh w0 ∧ leaked t w0));
      [|exact Hrun|done].
    intros e0 w0 w1 f0. apply step_leaked. }
  destruct Hend as [_ [Hin Hne]].
  split_and!; [done| |].
  - unfold cleanup.
    destruct (durationIntervalRef (ui w')) as [t0|] eqn:Ht0; [|done].
    cbn. apply elem_of_difference. split; [done|].
    rewrite elem_of_singleton. congruence.
  - cbn. rewrite decide_True by done. eexists. split; reflexivity.
Qed.

Lemma leaked_timer_runs_forever_witness :
  leaked 1%positive (world_after Cases.double_start_stopped)
  ∧ isRecording (ui (world_after Cases.double_start_stopped)) = false
  ∧ isProcessing (ui (world_after Cases.double_start_stopped)) = false.
Proof.
  split; [|split; vm_compute; reflexivity].
  eapply (leaked_timer_runs_forever 1%positive
            [ ClickRecord; Settle 3 (StopRecordingR Scenario.blob);
              Settle 4 (ArrayBufferR []);
              Settle 5 (TranscribeR (mkTranscribeResult false None)) ]
            (world_after Cases.double_start)
            (world_after Cases.double_start_stopped)).
  - eexists Cases.double_start, _. vm_compute. reflexivity.
  - split.
    + vm_compute. reflexivity.
    + vm_compute. discriminate.
  - vm_compute. reflexivity.
Defined.

(** X12.  The start handler never cancels a timer.  If the recorder
    starts while a recording is already shown (the record button was
    pressed twice before the first start was answered), the timer of the
    first start is left running without a holder, the ref moves on to a
    fresh timer, and the duration is reset to 0. *)
Theorem second_start_leaks_timer (p : nat) (w : World) :
  reachable w →
  isRecording (ui w) = true →
  pending w !! p = Some StartRecordingK →
  ∃ (t : positive) (w' : World),
    durationIntervalRef (ui w) = Some t
    ∧ step (Settle p StartRecordingR) w = Some (w', [])
    ∧ leaked t w'
    ∧ durationIntervalRef (ui w') = Some (next_interval w)
    ∧ recordingDuration (ui w') = 0.
Proof.
  intros Hreach Hrec Hp.
  assert (Hcons : recording_consistent w).
  { revert Hreach. apply (reachable_invariant recording_consistent).
    - exact step_recording_consistent.
    - exact mounted_recording_consistent. }
  assert (Hfresh : timers_fresh w).
  { revert Hreach. apply (reachable_invariant timers_fresh).
    - exact step_timers_fresh.
    - exact mounted_timers_fresh. }
  destruct Hcons as (Hiff & Hlive & _ & _).
  destruct (proj1 Hiff Hrec) as [t Ht].
  specialize (Hlive t Ht). destruct Hfresh as [_ Href].
  specialize (Href t Ht).
  exists t. cbn. rewrite Hp. cbn. unfold recorder_flag.
  destruct (audioRecorderRef (ui (settled p w))); cbn.
  all: eexists; split_and!; try done.
  all: split; cbn; [by apply elem_of_union_r|].
  all: intros Heq; simplify_eq; lia.
Qed.

Lemma second_start_leaks_timer_witness :
  ∃ (t : positive) (w' : World),
    durationIntervalRef
      (ui (world_after [Scenario.loaded; ClickRecord; ClickRecord;
                        Settle 1 StartRecordingR])) = Some t
    ∧ step (Settle 2 StartRecordingR)
           (world_after [Scenario.loaded; ClickRecord; ClickRecord;
                         Settle 1 StartRecordingR]) = Some (w', [])
    ∧ leaked t w'.
Proof.
  destruct (second_start_leaks_timer 2
              (world_after [Scenario.loaded; ClickRecord; ClickRecord;
                            Settle 1 StartRecordingR]))
    as (t & w' & Ht & Hstep & Hleak & _).
  - eexists [Scenario.loaded; ClickRecord; ClickRecord;
             Settle 1 StartRecordingR], _.
    vm_compute. reflexivity.
  - vm_compute. reflexivity.
  - vm_compute. reflexivity.
  - by exists t, w'.
Defined.

(** ** Suggestion requests *)

Lemma requests_follow_appends_app (seen f1 f2 : list Effect) :
  requests_follow_appends seen (f1 ++ f2)
  ↔ requests_follow_appends seen f1
    ∧ requests_follow_appends (seen ++ f1) f2.
Proof.
  revert seen. induction f1 as [|eff f1 IH]; intros seen.
  - cbn. rewrite app_nil_r. tauto.
  - assert (Htail : seen ++ eff :: f1 = (seen ++ [eff]) ++ f1)
      by (by rewrite <- app_assoc).
    destruct eff; cbn; rewrite IH, Htail; tauto.
Qed.

Lemma step_requests_follow_appends (seen : list Effect) (e : Event)
    (w w' : World) (f : list Effect) :
  step e w = Some (w', f) →
  appends_recorded seen w →
  appends_recorded (seen ++ f) w' ∧ requests_follow_appends seen f.
Proof.
  intros Hstep Hrec.
  destruct e.
  all: invert_step Hstep.
  all: split;
    [ intros ? ? ? Hq; unfold stop_finally, recorder_flag in Hq;
      repeat case_match; cbn in Hq;
      repeat first
        [ apply lookup_insert_Some in Hq as [[_ Hq]|[_ Hq]]
        | apply lookup_delete_Some in Hq as [_ Hq] ]
    | unfold stop_catch; cbn; try done ].
  all: try discriminate.
  all: try (apply elem_of_app; left; by eapply Hrec).
  all: try (rewrite app_nil_r; by eapply Hrec).
  - simplify_eq. apply elem_of_app. right. left.
  - split; [|done].
    match goal with
    | Hp : pending _ !! _ = Some (AddMessageK ?c _),
      Hc : cl_currentSpeaker ?c = interviewer |- _ =>
        rewrite <- Hc; exact (Hrec _ _ _ Hp)
    end.
Qed.

Lemma run_requests_follow_appends (es : list Event) (seen : list Effect)
    (w w' : World) (f : list Effect) :
  run es w = Some (w', f) →
  appends_recorded seen w →
  appends_recorded (seen ++ f) w' ∧ requests_follow_appends seen f.
Proof.
  revert seen w f. induction es as [|e es IH]; intros seen w f Hrun Hrec.
  - cbn in Hrun. simplify_eq. by rewrite app_nil_r.
  - cbn in Hrun.
    destruct (step e w) as [[w1 f1]|] eqn:Hstep; [|done]. cbn in Hrun.
    destruct (run es w1) as [[w2 f2]|] eqn:Hrest; [|done]. cbn in Hrun.
    simplify_eq.
    destruct (step_requests_follow_appends seen e w w1 f1 Hstep Hrec)
      as [Hrec1 Hf1].
    destruct (IH (seen ++ f1) w1 f2 Hrest Hrec1) as [Hrec2 Hf2].
    split.
    + by rewrite app_assoc.
    + by apply requests_follow_appends_app.
Qed.

Lemma requests_follow_appends_elem (seen f : list Effect) (q : string) :
  requests_follow_appends seen f →
  GetAnswerSuggestions q ∈ f →
  AddConversationMessage q interviewer ∈ seen ++ f.
Proof.
  revert seen. induction f as [|eff f IH]; intros seen Hok Hin.
  - by apply elem_of_nil in Hin.
  - assert (Htail : seen ++ eff :: f = (seen ++ [eff]) ++ f)
      by (by rewrite <- app_assoc).
    apply elem_of_cons in Hin as [<-|Hin].
    + destruct Hok as [Hseen _]. apply elem_of_app. by left.
    + rewrite Htail. apply IH; [|done].
      destruct eff; cbn in Hok; tauto.
Qed.

(** X13.  Suggestions are requested only for what the interviewer said:
    in every run that starts with no append in flight, each request for
    suggestions comes after a request to append that same text under the
    interviewer.  No push, reply or click makes the component ask for
    suggestions for an interviewee's words or for a text it has not asked
    the host to append. *)
Theorem suggestions_requested_only_after_interviewer_append
    (es : list Event) (w w' : World) (f : list Effect) :
  no_append_pending w →
  run es w = Some (w', f) →
  requests_follow_appends [] f
  ∧ ∀ q, GetAnswerSuggestions q ∈ f →
         AddConversationMessage q interviewer ∈ f.
Proof.
  intros Hnone Hrun.
  assert (Hrec : appends_recorded [] w).
  { intros p c txt Hp. by destruct (Hnone p c txt). }
  destruct (run_requests_follow_appends es [] w w' f Hrun Hrec)
    as [_ Hok].
  split; [done|].
  intros q Hin. by apply (requests_follow_appends_elem [] f q).
Qed.

Lemma suggestions_requested_only_after_interviewer_append_witness :
  ∃ (w' : World) (f : list Effect),
    run Scenario.question_asked mounted = Some (w', f)
    ∧ GetAnswerSuggestions Scenario.q1 ∈ f
    ∧ AddConversationMessage Scenario.q1 interviewer ∈ f.
Proof.
  eexists _, _. split; [vm_compute; reflexivity|].
  assert (Hin : GetAnswerSuggestions Scenario.q1
                ∈ [ScrollToBottom; ToggleSpeaker; ToggleSpeaker;
                   RecorderStart; RecorderStop;
                   TranscribeAudio [] "audio/webm";
                   AddConversationMessage Scenario.q1 interviewer;
                   GetAnswerSuggestions Scenario.q1]).
  { do 7 right. left. }
  split; [exact Hin|].
  eapply (suggestions_requested_only_after_interviewer_append
            Scenario.question_asked mounted); [| |exact Hin].
  - intros p c txt Hp. cbn in Hp.
    apply lookup_insert_Some in Hp as [[_ Hp]|[_ Hp]]; [discriminate Hp|].
    by rewrite lookup_empty in Hp.
  - vm_compute. reflexivity.
Defined.

(** ** The processing flag *)

Lemma step_promises_fresh (e : Event) (w w' : World) (f : list Effect) :
  step e w = Some (w', f) → promises_fresh w → promises_fresh w'.
Proof.
  intros Hstep Hfresh.
  destruct e.
  all: invert_step Hstep.
  all: try done.
  all: intros ? ? Hq; pending_cases Hq.
  all: try (cbn; lia).
  all: try (specialize (Hfresh _ _ Hq); cbn; lia).
  all: unfold recorder_flag; repeat case_match; cbn.
  all: try lia.
  all: specialize (Hfresh _ _ Hq); lia.
Qed.

Lemma step_processing_has_stop (e : Event) (w w' : World)
    (f : list Effect) :
  step e w = Some (w', f) →
  processing_has_stop w → processing_has_stop w'.
Proof.
  intros Hstep [Hfresh Hflag].
  split; [by eapply step_promises_fresh|].
  destruct e.
  all: invert_step Hstep.
  all: try done.
  all: intros Hproc; unfold stop_finally, recorder_flag in *;
       repeat case_match; cbn in *; try discriminate Hproc.
  all: first
    [ solve [ eexists _, _; split; [apply lookup_insert_eq|reflexivity] ]
    | destruct (Hflag Hproc) as (p0 & k0 & Hp0 & Hk0);
      exists p0, k0; split; [|exact Hk0];
      rewrite ?lookup_insert_ne by (specialize (Hfresh _ _ Hp0); lia);
      rewrite ?lookup_delete_ne by (by intros ->; simplify_eq);
      exact Hp0
    | destruct (Hflag eq_refl) as (p0 & k0 & Hp0 & Hk0);
      exists p0, k0; split; [|exact Hk0];
      rewrite ?lookup_insert_ne by (specialize (Hfresh _ _ Hp0); lia);
      rewrite ?lookup_delete_ne by (by intros ->; simplify_eq);
      exact Hp0
    | congruence ].
Qed.

Lemma mounted_processing_has_stop : processing_has_stop mounted.
Proof.
  split; [|done].
  intros p k Hp. cbn in *.
  apply lookup_insert_Some in Hp as [[<- _]|[_ Hp]]; [lia|].
  by rewrite lookup_empty in Hp.
Qed.

(** X15.  In every reachable state the processing indicator is up
    exactly while a stop is in flight, and at most one stop is in flight:
    the indicator is never left up with nothing to wait for, and the
    record button is never enabled under a stop that is still running. *)
Theorem processing_exactly_while_stop_in_flight (w : World) :
  reachable w →
  (isProcessing (ui w) = true
   ↔ ∃ (p : nat) (k : Task), pending w !! p = Some k ∧ in_stop k = true)
  ∧ (∀ (p1 p2 : nat) (k1 k2 : Task),
       pending w !! p1 = Some k1 → in_stop k1 = true →
       pending w !! p2 = Some k2 → in_stop k2 = true →
       p1 = p2).
Proof.
  intros Hreach.
  assert (Hone : one_stop_at_a_time w).
  { destruct Hreach as (es & f & Hrun).
    exact (run_one_stop es mounted w f Hrun mounted_one_stop). }
  assert (Hhas : processing_has_stop w).
  { revert Hreach. apply (reachable_invariant processing_has_stop).
    - exact step_processing_has_stop.
    - exact mounted_processing_has_stop. }
  destruct Hone as [Hup Huniq]. destruct Hhas as [_ Hdown].
  split; [|exact Huniq].
  split; [exact Hdown|].
  intros (p & k & Hp & Hk). by eapply Hup.
Qed.

Lemma processing_exactly_while_stop_in_flight_witness :
  isProcessing (ui (world_after Scenario.shortcut_while_processing)) = true
  ∧ ∃ (p : nat) (k : Task),
      pending (world_after Scenario.shortcut_while_processing) !! p = Some k
      ∧ in_stop k = true.
Proof.
  split; [vm_compute; reflexivity|].
  apply (processing_exactly_while_stop_in_flight
           (world_after Scenario.shortcut_while_processing)).
  - eexists Scenario.shortcut_while_processing, _. vm_compute. reflexivity.
  - vm_compute. reflexivity.
Defined.

(** ** The initial load *)

(** X16.  The reply to the initial load never alerts and writes nothing
    but the log.  A successful reply installs the host's list in place
    of the log, so that messages pushed while the load was out are kept
    only if the host's list has them; a reply without success and a
    rejected call leave the log as it is, the latter with one line on
    the console. *)
Theorem load_reply_replaces_or_keeps_log
    (p : nat) (r : Reply) (w w' : World) (f : list Effect) :
  pending w !! p = Some LoadConversationK →
  step (Settle p r) w = Some (w', f) →
  messages (ui w')
  = match r with
    | ConversationR result =>
        if gc_success result then gc_messages result else messages (ui w)
    | _ => messages (ui w)
    end
  ∧ existsb is_alert f = false
  ∧ (f = [ConsoleError "Failed to load conversation:"]
     ↔ ∃ error, r = Rejects error)
  ∧ w' = setMessages (λ _, messages (ui w')) (settled p w).
Proof.
  intros Hp Hstep. cbn in Hstep. rewrite Hp in Hstep. cbn in Hstep.
  unfold loadConversation_resume in Hstep.
  destruct r as [error| | | | | | | |result]; try discriminate Hstep.
  - simplify_eq. split_and!; try done.
    + split; [by eexists|done].
    + by destruct w as [[]].
  - destruct (gc_success result); simplify_eq; split_and!; try done.
    + split; [discriminate|]. by intros [? ?].
    + split; [discriminate|]. by intros [? ?].
    + by destruct w as [[]].
Qed.

Lemma load_reply_replaces_or_keeps_log_witness :
  ∃ (w' : World) (f : list Effect),
    step (Settle 0 (ConversationR (mkConversationResult true [])))
         (world_after [MessageAdded Scenario.question]) = Some (w', f)
    ∧ messages (ui (world_after [MessageAdded Scenario.question]))
      = [Scenario.question]
    ∧ messages (ui w') = [].
Proof.
  eexists _, _. split; [vm_compute; reflexivity|].
  split; [vm_compute; reflexivity|].
  eapply (load_reply_replaces_or_keeps_log 0
            (ConversationR (mkConversationResult true []))
            (world_after [MessageAdded Scenario.question])).
  - vm_compute. reflexivity.
  - vm_compute. reflexivity.
Defined.


Lemma formatDuration_inj_witness :
  formatDuration (2 * 60 + 5) = formatDuration 125 ∧ 2 * 60 + 5 = 125.
Proof.
  assert (Hlabel : formatDuration (2 * 60 + 5) = formatDuration 125)
    by (vm_compute; reflexivity).
  split; [exact Hlabel|].
  exact (formatDuration_inj (2 * 60 + 5) 125 Hlabel).
Defined.

(** ** Attribution of appends and of suggestion requests *)

Lemma step_stop_recorded (last : option Speaker) (e : Event)
    (w w' : World) (f : list Effect) :
  step e w = Some (w', f) →
  stop_recorded last w →
  stop_recorded (latest_stop last w f) w'
  ∧ (∀ txt sp, AddConversationMessage txt sp ∈ f →
               latest_stop last w f = Some sp)
  ∧ (∀ q, GetAnswerSuggestions q ∈ f →
          latest_stop last w f = Some interviewer).
Proof.
  intros Hstep [Hone Hlast].
  split; [split; [by eapply step_one_stop|]|].
  - destruct Hone as [Hflag _].
    destruct e.
    all: invert_step Hstep.
    all: intros ? ? ? Hq Hk; unfold latest_stop; cbn [invokes_stop existsb orb];
         unfold stop_finally, recorder_flag in Hq;
         repeat case_match; cbn in Hq;
         repeat first
           [ apply lookup_insert_Some in Hq as [[_ Hq]|[_ Hq]]
           | apply lookup_delete_Some in Hq as [_ Hq] ].
    all: try discriminate.
    all: try (by eapply Hlast).
    all: try (subst; discriminate Hk).
    all: try (subst k; cbn in Hk; exact Hk).
    all: try (subst k;
              match goal with
              | Hp : pending _ !! _ = Some _ |- _ =>
                  exact (Hlast _ _ _ Hp Hk)
              end).
    all: try (exfalso;
              assert (Hin : in_stop k = true) by (by destruct k);
              discriminate (Hflag _ _ Hq Hin)).
  - split.
    + intros txt sp Hin.
      destruct e.
      all: invert_step Hstep; effects_cases Hin.
      simplify_eq. unfold latest_stop. cbn.
      match goal with
      | Hp : pending _ !! _ = Some (TranscribeK _) |- _ =>
          exact (Hlast _ _ _ Hp eq_refl)
      end.
    + intros q Hin.
      destruct e.
      all: invert_step Hstep; effects_cases Hin.
      unfold latest_stop. cbn.
      match goal with
      | Hp : pending _ !! _ = Some (AddMessageK ?c _),
        Hc : cl_currentSpeaker ?c = interviewer |- _ =>
          rewrite <- Hc; exact (Hlast _ _ _ Hp eq_refl)
      end.
Qed.

Lemma mounted_stop_recorded : stop_recorded None mounted.
Proof.
  split; [exact mounted_one_stop|].
  intros p k sp Hp Hk. cbn in Hp.
  apply lookup_insert_Some in Hp as [[_ <-]|[_ Hp]]; [discriminate Hk|].
  by rewrite lookup_empty in Hp.
Qed.

Lemma stamped_stop_recorded (last : option Speaker) (es : list Event)
    (w : World) :
  stop_recorded last w →
  ∀ (l : option Speaker) (x : Effect),
    (l, x) ∈ stamped last es w →
    match x with
    | AddConversationMessage _ sp => l = Some sp
    | GetAnswerSuggestions _ => l = Some interviewer
    | _ => True
    end.
Proof.
  revert last w. induction es as [|e es IH]; intros last w Hrec l x Hin.
  - by apply elem_of_nil in Hin.
  - cbn in Hin.
    destruct (step e w) as [[w1 f1]|] eqn:Hstep;
      [|by apply elem_of_nil in Hin].
    destruct (step_stop_recorded last e w w1 f1 Hstep Hrec)
      as (Hrec1 & Hadd & Hreq).
    apply elem_of_app in Hin as [Hin|Hin].
    + apply list_elem_of_fmap in Hin as (y & Heq & Hy).
      injection Heq as -> ->.
      destruct y; try done.
      * by apply Hadd with (txt := txt).
      * by apply Hreq with (q := question).
    + by apply (IH _ w1 Hrec1).
Qed.

(** The stamped effects of a run are the effects of the run. *)
Lemma stamped_effects (last : option Speaker) (es : list Event)
    (w w' : World) (f : list Effect) :
  run es w = Some (w', f) → snd <$> stamped last es w = f.
Proof.
  revert last w f. induction es as [|e es IH]; intros last w f Hrun.
  - cbn in Hrun. by simplify_eq.
  - cbn in Hrun. cbn [stamped].
    destruct (step e w) as [[w1 f1]|] eqn:Hstep; [|done]. cbn in Hrun.
    destruct (run es w1) as [[w2 f2]|] eqn:Hrest; [|done]. cbn in Hrun.
    simplify_eq.
    rewrite fmap_app, (IH _ w1 f2 Hrest). f_equal.
    rewrite <- list_fmap_compose. apply list_fmap_id.
Qed.


Lemma idle_stop_recorded (w : World) :
  reachable w → isProcessing (ui w) = false → stop_recorded None w.
Proof.
  intros (es & f & Hrun) Hidle.
  pose proof (run_one_stop es mounted w f Hrun mounted_one_stop) as Hone.
  split; [exact Hone|].
  intros p k sp Hp Hk. destruct Hone as [Hflag _].
  assert (Hin : in_stop k = true) by (by destruct k).
  specialize (Hflag p k Hp Hin). congruence.
Qed.

(** X14.  Suggestions are requested only by a stop that was invoked
    while the interviewer was the active speaker.  From any reachable
    state with no stop in flight, along any run whatsoever (presses of
    the button and of the shortcut, pushes, ticks and replies in any
    order), each request for suggestions is made when the speaker
    recorded at the latest invocation of a stop is the interviewer.  As
    at most one stop is in flight, that stop is the one the request
    belongs to: a stop invoked under the interviewee never leads to a
    request, also when the speaker changes while it is processed. *)
Theorem interviewee_stop_requests_no_suggestions
    (es : list Event) (w : World) (l : option Speaker) (q : string) :
  reachable w →
  isProcessing (ui w) = false →
  (l, GetAnswerSuggestions q) ∈ stamped None es w →
  l = Some interviewer.
Proof.
  intros Hreach Hidle Hin.
  exact (stamped_stop_recorded None es w (idle_stop_recorded w Hreach Hidle)
           l (GetAnswerSuggestions q) Hin).
Qed.

Lemma interviewee_stop_requests_no_suggestions_witness :
  (Some interviewer, GetAnswerSuggestions Scenario.q1)
    ∈ stamped None Scenario.question_asked mounted
  ∧ Some interviewer = Some interviewer
  ∧ stamped None (Scenario.recording ++ Cases.overtaken_turn) mounted
    = [ (None, ScrollToBottom); (None, RecorderStart);
        (Some interviewee, RecorderStop);
        (Some interviewee, RecorderStart);
        (Some interviewee, TranscribeAudio [] "audio/webm");
        (Some interviewee,
         AddConversationMessage Scenario.a1 interviewee) ].
Proof.
  assert (Hin : (Some interviewer, GetAnswerSuggestions Scenario.q1)
                ∈ stamped None Scenario.question_asked mounted).
  { vm_compute. do 7 right. left. }
  split; [exact Hin|]. split; [|vm_compute; reflexivity].
  apply (interviewee_stop_requests_no_suggestions
           Scenario.question_asked mounted (Some interviewer) Scenario.q1).
  - by exists [], [].
  - reflexivity.
  - exact Hin.
Defined.

(** X17.  Every append is requested under the speaker who was active
    when its stop was invoked.  From any reachable state with no stop in
    flight, along any run whatsoever (presses of the button and of the
    shortcut, pushes, among them changes of speaker, ticks and replies
    in any order), each request to append carries the speaker recorded
    at the latest invocation of a stop; as at most one stop is in
    flight, that stop is the one the transcript belongs to. *)
Theorem append_carries_speaker_of_its_stop
    (es : list Event) (w : World) (l : option Speaker) (txt : string)
    (sp : Speaker) :
  reachable w →
  isProcessing (ui w) = false →
  (l, AddConversationMessage txt sp) ∈ stamped None es w →
  l = Some sp.
Proof.
  intros Hreach Hidle Hin.
  exact (stamped_stop_recorded None es w (idle_stop_recorded w Hreach Hidle)
           l (AddConversationMessage txt sp) Hin).
Qed.

Lemma append_carries_speaker_of_its_stop_witness :
  ∃ (w : World) (f : list Effect),
    run (Scenario.recording ++ Cases.overtaken_turn) mounted = Some (w, f)
    ∧ currentSpeaker (ui w) = interviewer
    ∧ (Some interviewee, AddConversationMessage Scenario.a1 interviewee)
        ∈ stamped None (Scenario.recording ++ Cases.overtaken_turn) mounted
    ∧ Some interviewee = Some interviewee.
Proof.
  eexists _, _. split; [vm_compute; reflexivity|].
  split; [reflexivity|].
  assert (Hin : (Some interviewee,
                 AddConversationMessage Scenario.a1 interviewee)
                ∈ stamped None (Scenario.recording ++ Cases.overtaken_turn)
                    mounted).
  { vm_compute. do 5 right. left. }
  split; [exact Hin|].
  apply (append_carries_speaker_of_its_stop
           (Scenario.recording ++ Cases.overtaken_turn) mounted
           (Some interviewee) Scenario.a1 interviewee).
  - by exists [], [].
  - reflexivity.
  - exact Hin.
Defined.
